(** * voltlog: middleware stages and log levels

    A shallow embedding of the type definitions ([core/types]), of the
    sampling middleware ([middleware/sampling.ts]), of the OCPP enrichment
    middleware and of the JSON stream transport
    ([transformers/json-stream.ts]), with the properties of the sampling
    (rate-limiting) stage, of the OCPP enrichment stage, of the level tables
    and of the transport.

    Conventions of the embedding.
    - A JavaScript [Map<string, V>] is a [gmap string V]. The only place
      where the iteration order of the map could matter is the clean-up
      loop of the sampling stage; it is modelled as a fold over the table
      and shown to be independent of the order.
    - Timestamps, counters and sizes are JavaScript numbers holding
      integers; they are modelled as [Z]. Log levels include [Infinity]
      and are modelled as IEEE 754 binary64 values ([spec_float]).
    - A middleware stage is a computation in the monad [M]: it reads and
      writes the private state of its closure, may read the wall clock,
      may fail (a JavaScript exception), and logs every call of its
      [next] continuation. *)

From Stdlib Require Import ZArith Lia List Sorting.Sorted.
From Stdlib Require Import Floats.SpecFloat.
From stdpp Require Import gmap strings pretty list fin_maps.

Local Open Scope Z_scope.

(** ** JavaScript numbers used as levels *)

Module Number.

Definition number : Type := spec_float.

Definition prec : Z := 53.
Definition emax : Z := 1024.

(** The binary64 value of an integer literal. *)
Definition of_Z (z : Z) : number := binary_normalize prec emax z 0 false.

Definition Infinity : number := S754_infinity false.

(** [Number.isFinite] *)
Definition isFinite (x : number) : bool :=
  match x with
  | S754_zero _ | S754_finite _ _ _ => true
  | S754_infinity _ | S754_nan => false
  end.

(** The relational operators [<], [>] and [>=] of the language. *)
Definition lt (x y : number) : bool := SFltb x y.
Definition gt (x y : number) : bool := SFltb y x.
Definition ge (x y : number) : bool := SFleb y x.

End Number.

(** ** Type definitions ([core/types]) *)

Inductive LogLevelName : Type :=
  | TRACE | DEBUG | INFO | WARN | ERROR | FATAL | SILENT.

(** The [LogLevel] table: the value stored under each name. *)
Definition LogLevel (name : LogLevelName) : Number.number :=
  match name with
  | TRACE => Number.of_Z 10
  | DEBUG => Number.of_Z 20
  | INFO => Number.of_Z 30
  | WARN => Number.of_Z 40
  | ERROR => Number.of_Z 50
  | FATAL => Number.of_Z 60
  | SILENT => Number.Infinity
  end.

(** A value of type [unknown]: opaque data carried through the stages. *)
#[warnings="-register-all"]
Inductive unknown : Type :=
  | UUndefined
  | UNull
  | UBool (b : bool)
  | UNumber (n : Z)
  | UString (s : string)
  | UObject (fields : list (string * unknown)).

Module LogError.
Record t : Type := mk {
    message : string;
    stack : option string;
    code : option string;
    name : option string;
  }.
End LogError.

Record LogEntry (TMeta : Type) : Type := mkLogEntry {
  id : string;
  level : Number.number;
  levelName : LogLevelName;
  message : string;
  timestamp : Z;
  meta : TMeta;
  context : option (list (string * unknown));
  correlationId : option string;
  error : option LogError.t;
}.

Arguments mkLogEntry {TMeta}.
Arguments id {TMeta}.
Arguments level {TMeta}.
Arguments levelName {TMeta}.
Arguments message {TMeta}.
Arguments timestamp {TMeta}.
Arguments meta {TMeta}.
Arguments context {TMeta}.
Arguments correlationId {TMeta}.
Arguments error {TMeta}.

Inductive MessageType : Type := CALL | CALLRESULT | CALLERROR.
Inductive Direction : Type := IN | OUT.

Module OcppExchangeMeta.
Record t : Type := mk {
    chargePointId : option string;
    messageType : option MessageType;
    action : option string;
    direction : option Direction;
    correlationId : option string;
    protocol : option string;
    payloadSize : option Z;
    latencyMs : option Z;
    status : option string;
  }.
End OcppExchangeMeta.

(** ** The monad of middleware stages

    [LogMiddleware = (entry, next) => void].  The state [S] is whatever the
    stage can reach besides its arguments; [E] is what [next] is called
    with.  A run yields the new state and the calls of [next], in order,
    or [None] when the stage throws. *)

Record Env : Type := { date_now : Z }.

Definition M (S E A : Type) : Type := Env → S → option (A * S * list E).

Section Monad.
Context {S E : Type}.

#[export] Instance M_ret : MRet (M S E) :=
  λ A a _ s, Some (a, s, []).

#[export] Instance M_bind : MBind (M S E) :=
  λ A B f m env s,
    match m env s with
    | None => None
    | Some (a, s1, calls1) =>
        match f a env s1 with
        | None => None
        | Some (b, s2, calls2) => Some (b, s2, calls1 ++ calls2)
        end
    end.

Definition gets {A} (f : S → A) : M S E A := λ _ s, Some (f s, s, []).
Definition modify (f : S → S) : M S E unit := λ _ s, Some (tt, f s, []).
Definition throw {A} : M S E A := λ _ _, None.

(** [Date.now()] *)
Definition Date_now : M S E Z := λ env s, Some (date_now env, s, []).

(** [next(entry)] *)
Definition next (entry : E) : M S E unit := λ _ s, Some (tt, s, [entry]).

(** What a run that returned called [next] with. *)
Definition calls_of {A} (r : option (A * S * list E)) : list E :=
  match r with
  | Some (_, _, calls) => calls
  | None => []
  end.

Definition state_of {A} (r : option (A * S * list E)) : option S :=
  match r with
  | Some (_, s, _) => Some s
  | None => None
  end.

(** Feeding a stage a sequence of entries, one invocation after the
    other; [clock i] is the wall-clock time of the [i]-th invocation.
    The result lists what each invocation passed to [next]. *)
Fixpoint feed (mw : E → M S E unit) (clock : nat → Z) (entries : list E)
    (s : S) : option (list (list E) * S) :=
  match entries with
  | [] => Some ([], s)
  | entry :: rest =>
      match mw entry {| date_now := clock O |} s with
      | None => None
      | Some (_, s1, calls) =>
          match feed mw (λ i, clock (Datatypes.S i)) rest s1 with
          | None => None
          | Some (later, s2) => Some (calls :: later, s2)
          end
      end
  end.

End Monad.

Definition LogMiddleware (S TMeta : Type) : Type :=
  LogEntry TMeta → M S (LogEntry TMeta) unit.

(** ** middleware/sampling.ts *)

Module SamplingOptions.
Record t (TMeta : Type) : Type := mk {
  keyFn : option (LogEntry TMeta → string);
  maxPerWindow : option Z;
  windowMs : option Z;
}.
Arguments mk {TMeta}.
Arguments keyFn {TMeta}.
Arguments maxPerWindow {TMeta}.
Arguments windowMs {TMeta}.

(** The argument default [options = {}]. *)
Definition empty {TMeta} : t TMeta := mk None None None.
End SamplingOptions.

Record BucketEntry : Type := mkBucket {
  count : Z;
  windowStart : Z;
}.

Section Sampling.
Context {TMeta : Type}.

Abbreviation Entry := (LogEntry TMeta).
Abbreviation Buckets := (gmap string BucketEntry).

Section Closure.
Variable options : SamplingOptions.t TMeta.

(** The three constants bound when the middleware is created;
    [a ?? b] is [default b a]. *)
Definition keyFn : Entry → string :=
  default (λ entry : Entry, message entry) (SamplingOptions.keyFn options).
Definition maxPerWindow : Z :=
  default 100 (SamplingOptions.maxPerWindow options).
Definition windowMs : Z :=
  default 60000 (SamplingOptions.windowMs options).

(** Lines 54-68 of the closure: find or reset the bucket of the
    entry's key, count the entry, forward it while the count is within
    the limit.  A bucket object is stored under one key only, so
    [bucket.count++] is an update of the table at [key]. *)
Definition rate_limit : LogMiddleware Buckets TMeta :=
  λ entry,
    let key := keyFn entry in
    let now := timestamp entry in
    found ← gets (λ buckets : Buckets, buckets !! key);
    bucket ←
      match found with
      | Some b =>
          if bool_decide (now - windowStart b >= windowMs)
          then
            let fresh := {| count := 0; windowStart := now |} in
            modify (insert key fresh) ;; mret fresh
          else mret b
      | None =>
          let fresh := {| count := 0; windowStart := now |} in
          modify (insert key fresh) ;; mret fresh
      end;
    let bucket := {| count := count bucket + 1;
                     windowStart := windowStart bucket |} in
    modify (insert key bucket) ;;
    if bool_decide (count bucket <= maxPerWindow)
    then next entry else mret tt.

(** The loop [for (const [k, b] of buckets) if (...) buckets.delete(k)]:
    every bucket of the table is visited once and deleted from the
    table when its test holds. *)
Definition sweep (now : Z) (buckets : Buckets) : Buckets :=
  map_fold
    (λ k b acc,
       if bool_decide (now - windowStart b >= windowMs * 2)
       then delete k acc else acc)
    buckets buckets.

(** Lines 70-77 of the closure: the periodic clean-up. *)
Definition cleanup : LogMiddleware Buckets TMeta :=
  λ entry,
    let now := timestamp entry in
    size ← gets (λ buckets : Buckets, Z.of_nat (size buckets));
    if bool_decide (size > 10000)
    then modify (sweep now) else mret tt.

(** The closure returned by [samplingMiddleware(options)]; its private
    [buckets] map is the state, empty when the closure is created. *)
Definition samplingMiddleware : LogMiddleware Buckets TMeta :=
  λ entry, rate_limit entry ;; cleanup entry.

End Closure.
End Sampling.

(** ** The OCPP enrichment middleware

    The stage copies the entry and its [meta] object and assigns to fields
    of the copies, so entries are objects in a store here: an entry object
    refers to its [meta] object by location. *)

Definition loc : Type := positive.

Inductive Obj : Type :=
  | OEntry (e : LogEntry loc)
  | OMeta (m : OcppExchangeMeta.t).

Abbreviation Heap := (gmap loc Obj).

Module OcppMiddlewareOptions.
Record t : Type := mk {
  autoPayloadSize : option bool;
  propagateCorrelationId : option bool;
}.
Definition empty : t := mk None None.
End OcppMiddlewareOptions.

(** Truthiness of an optional string: [undefined] and the empty string
    are falsy. *)
Definition truthy (s : option string) : bool :=
  match s with
  | Some s => negb (String.eqb s EmptyString)
  | None => false
  end.

(** Assignments to one field of an object. *)
Definition set_meta {A B} (m : B) (e : LogEntry A) : LogEntry B :=
  mkLogEntry (id e) (level e) (levelName e) (message e) (timestamp e) m
    (context e) (correlationId e) (error e).

Definition set_correlationId {A} (c : option string) (e : LogEntry A)
    : LogEntry A :=
  mkLogEntry (id e) (level e) (levelName e) (message e) (timestamp e)
    (meta e) (context e) c (error e).

Definition set_payloadSize (p : option Z) (m : OcppExchangeMeta.t)
    : OcppExchangeMeta.t :=
  OcppExchangeMeta.mk
    (OcppExchangeMeta.chargePointId m) (OcppExchangeMeta.messageType m)
    (OcppExchangeMeta.action m) (OcppExchangeMeta.direction m)
    (OcppExchangeMeta.correlationId m) (OcppExchangeMeta.protocol m)
    p (OcppExchangeMeta.latencyMs m) (OcppExchangeMeta.status m).

Section Store.
Context {E : Type}.

(** A new object, at a location not in use. *)
Definition alloc (o : Obj) : M Heap E loc :=
  λ _ h, let l := fresh (dom h) in Some (l, <[l := o]> h, []).

Definition store (l : loc) (o : Obj) : M Heap E unit :=
  modify (insert l o).

(** Reading the fields of an entry object, of a meta object; reading
    through anything else throws. *)
Definition load_entry (l : loc) : M Heap E (LogEntry loc) :=
  found ← gets (λ h : Heap, h !! l);
  match found with
  | Some (OEntry e) => mret e
  | _ => throw
  end.

Definition load_meta (l : loc) : M Heap E OcppExchangeMeta.t :=
  found ← gets (λ h : Heap, h !! l);
  match found with
  | Some (OMeta m) => mret m
  | _ => throw
  end.
End Store.

Section Ocpp.
(** [JSON.stringify(meta).length], or [None] when [JSON.stringify]
    throws.  It belongs to the language, not to the repository. *)
Variable JSON_stringify_length : OcppExchangeMeta.t → option Z.

Variable options : OcppMiddlewareOptions.t.

Definition autoPayloadSize : bool :=
  default true (OcppMiddlewareOptions.autoPayloadSize options).
Definition propagateCorrelationId : bool :=
  default true (OcppMiddlewareOptions.propagateCorrelationId options).

(** The closure returned by [ocppMiddleware(options)].  Entries are
    passed, and forwarded, by reference. *)
Definition ocppMiddleware : loc → M Heap loc unit :=
  λ entry,
    (* const enriched = { ...entry, meta: { ...entry.meta } } *)
    e ← load_entry entry;
    enriched ← alloc (OEntry e);
    m ← load_meta (meta e);
    copy ← alloc (OMeta m);
    store enriched (OEntry (set_meta copy e)) ;;
    (* auto-compute payload size *)
    e1 ← load_entry enriched;
    m1 ← load_meta (meta e1);
    (if autoPayloadSize
        && bool_decide (OcppExchangeMeta.payloadSize m1 = None)
        && truthy (OcppExchangeMeta.action m1)
     then
       match JSON_stringify_length m1 with
       | Some n => store (meta e1) (OMeta (set_payloadSize (Some n) m1))
       | None => mret tt
       end
     else mret tt) ;;
    (* propagate correlation ID from OCPP meta to entry-level *)
    e2 ← load_entry enriched;
    m2 ← load_meta (meta e2);
    (if propagateCorrelationId
        && truthy (OcppExchangeMeta.correlationId m2)
        && negb (truthy (correlationId e2))
     then
       store enriched
         (OEntry (set_correlationId (OcppExchangeMeta.correlationId m2) e2))
     else mret tt) ;;
    next enriched.
End Ocpp.

(** ** The algorithm of the sampling stage in the words of its description

    "Look up bucket by key. If absent, or if [now - windowStart >= windowMs],
    reset bucket to [{count: 0, windowStart: now}]. Increment count." *)

(** The bucket the entry is counted in: the one found, or a reset one. *)
Definition current_bucket (window now : Z) (found : option BucketEntry)
    : BucketEntry :=
  match found with
  | Some b =>
      if bool_decide (now - windowStart b >= window)
      then {| count := 0; windowStart := now |} else b
  | None => {| count := 0; windowStart := now |}
  end.

(** That bucket after the increment. *)
Definition counted_bucket (window now : Z) (found : option BucketEntry)
    : BucketEntry :=
  let b := current_bucket window now found in
  {| count := count b + 1; windowStart := windowStart b |}.

(** The decisions for entries of one key arriving at [times], when the
    bucket of the key is [found] before the first: "admit iff
    [count <= maxPerWindow]". *)
Fixpoint one_key_decisions (limit window : Z) (found : option BucketEntry)
    (times : list Z) : list bool :=
  match times with
  | [] => []
  | now :: later =>
      let counted := counted_bucket window now found in
      bool_decide (count counted <= limit)
        :: one_key_decisions limit window (Some counted) later
  end.

Section SamplingDescription.
Context {TMeta : Type}.
Variable options : SamplingOptions.t TMeta.

(** The table after the clean-up phase ran at time [now]. *)
Definition after_cleanup (now : Z) (buckets : gmap string BucketEntry)
    : gmap string BucketEntry :=
  if bool_decide (Z.of_nat (size buckets) > 10000)
  then sweep options now buckets else buckets.

(** Two entries that the stage cannot tell apart: same key, same time. *)
Definition same_key_time (e1 e2 : LogEntry TMeta) : Prop :=
  keyFn options e1 = keyFn options e2 ∧ timestamp e1 = timestamp e2.

End SamplingDescription.

(** An invocation admitted its entry when it called [next]. *)
Definition admitted {E} (calls : list E) : bool :=
  match calls with
  | [] => false
  | _ :: _ => true
  end.

(** ** Calls of [next] *)

(** A computation that never calls [next]. *)
Definition silent {S E A} (m : M S E A) : Prop :=
  ∀ env s a s' calls, m env s = Some (a, s', calls) → calls = [].

(** A computation that calls [next] at most once in every run. *)
Definition calls_at_most_once {S E A} (m : M S E A) : Prop :=
  ∀ env s, (length (calls_of (m env s)) <= 1)%nat.

(** ** What the OCPP stage leaves in the copies *)

Section OcppDescription.
Variable JSON_stringify_length : OcppExchangeMeta.t → option Z.
Variable options : OcppMiddlewareOptions.t.

(** [payloadSize] of the copied meta object. *)
Definition enriched_payloadSize (m : OcppExchangeMeta.t) : option Z :=
  if autoPayloadSize options
     && bool_decide (OcppExchangeMeta.payloadSize m = None)
     && truthy (OcppExchangeMeta.action m)
  then match JSON_stringify_length m with
       | Some n => Some n
       | None => OcppExchangeMeta.payloadSize m
       end
  else OcppExchangeMeta.payloadSize m.

(** [correlationId] of the copied entry. *)
Definition enriched_correlationId (e : LogEntry loc)
    (m : OcppExchangeMeta.t) : option string :=
  if propagateCorrelationId options
     && truthy (OcppExchangeMeta.correlationId m)
     && negb (truthy (correlationId e))
  then OcppExchangeMeta.correlationId m
  else correlationId e.

End OcppDescription.

(** ** Concrete inputs used below *)

(** A table of 10001 buckets, keyed "0" to "10000", all opened at time 0. *)
Definition crowded : gmap string BucketEntry :=
  list_to_map
    ((λ i : Z, (pretty i, {| count := 1; windowStart := 0 |}))
       <$> seqZ 0 10001).

(** Ten entries per second and key; an entry of key "0" at time 2000. *)
Definition probe_options : SamplingOptions.t unit :=
  SamplingOptions.mk None (Some 10) (Some 1000).
Definition probe : LogEntry unit :=
  mkLogEntry "id-0" (LogLevel INFO) INFO "0" 2000 tt None None None.

(** Entries of one key, told apart by their [id]. *)
Definition tick (id : string) (time : Z) : LogEntry unit :=
  mkLogEntry id (LogLevel INFO) INFO "tick" time tt None None None.

(** Three entries in quick succession, for a limit of two per second. *)
Definition burst_options : SamplingOptions.t unit :=
  SamplingOptions.mk None (Some 2) (Some 1000).
Definition burst : list (LogEntry unit) :=
  [tick "a" 0; tick "b" 10; tick "c" 20].

(** The same three events under other ids. *)
Definition burst_again : list (LogEntry unit) :=
  [tick "d" 0; tick "e" 10; tick "f" 20].

(** Ten entries at time 0, one at 500, one at 1001. *)
Definition twelve : list (LogEntry unit) :=
  replicate 10 (tick "x" 0) ++ [tick "y" 500; tick "z" 1001].

(** An entry whose own [correlationId] is the empty string, with its meta
    object, in a store of two objects. *)
Definition sample_meta : OcppExchangeMeta.t :=
  OcppExchangeMeta.mk (Some "CP-7") (Some CALL) None (Some IN)
    (Some "corr-42") None None None None.
Definition sample_entry : LogEntry loc :=
  mkLogEntry "id-1" (LogLevel INFO) INFO "Message received" 1700000000000
    2%positive None (Some EmptyString) None.
Definition sample_heap : Heap :=
  {[ 1%positive := OEntry sample_entry; 2%positive := OMeta sample_meta ]}.

(** ** The level maps ([core/types]) *)

(** [Object.keys(LogLevel)], in the order of the literal. *)
Definition LogLevel_names : list LogLevelName :=
  [TRACE; DEBUG; INFO; WARN; ERROR; FATAL; SILENT].

(** The property name behind each [LogLevelName]. *)
Definition LogLevelName_key (name : LogLevelName) : string :=
  match name with
  | TRACE => "TRACE" | DEBUG => "DEBUG" | INFO => "INFO" | WARN => "WARN"
  | ERROR => "ERROR" | FATAL => "FATAL" | SILENT => "SILENT"
  end.

(** [Object.entries(LogLevel)] *)
Definition Object_entries_LogLevel : list (LogLevelName * Number.number) :=
  (λ name, (name, LogLevel name)) <$> LogLevel_names.

(** [Object.fromEntries]: a later entry replaces an earlier one of the same
    key. *)
Definition Object_fromEntries {V} (entries : list (string * V))
    : gmap string V :=
  foldl (λ object kv, <[kv.1 := kv.2]> object) ∅ entries.

(** [String.prototype.toLowerCase], on ASCII text. *)
Definition ascii_toLowerCase (c : Ascii.ascii) : Ascii.ascii :=
  let n := Ascii.N_of_ascii c in
  if bool_decide (65 <= n <= 90)%N then Ascii.ascii_of_N (n + 32) else c.

Fixpoint toLowerCase (s : string) : string :=
  match s with
  | EmptyString => EmptyString
  | String c rest => String (ascii_toLowerCase c) (toLowerCase rest)
  end.

Definition LogLevelNameMap : gmap string Number.number :=
  Object_fromEntries
    ((λ kv : LogLevelName * Number.number,
        (toLowerCase (LogLevelName_key kv.1), kv.2))
       <$> Object_entries_LogLevel).

Section ValueMap.
(** The property name a number is turned into when it is used as a key
    ([ToString] of the language). *)
Variable ToString : Number.number → string.

Definition LogLevelValueMap : gmap string LogLevelName :=
  Object_fromEntries
    ((λ kv : LogLevelName * Number.number, (ToString kv.2, kv.1))
       <$> filter (λ kv, Number.isFinite kv.2 = true)
             Object_entries_LogLevel).
End ValueMap.

(** [ToString] on the numbers that hold an integer below 2^53, [Infinity]
    and [NaN]; the empty string stands for the other numbers. *)
Definition integer_ToString (x : Number.number) : string :=
  match x with
  | S754_nan => "NaN"
  | S754_infinity false => "Infinity"
  | S754_infinity true => "-Infinity"
  | S754_zero _ => "0"
  | S754_finite s m e =>
      if bool_decide (-52 <= e <= 0) && bool_decide (Z.pos m mod 2 ^ (- e) = 0)
      then (if s then "-" else "") +:+ pretty (Z.pos m / 2 ^ (- e))
      else ""
  end.

(** ** transformers/json-stream.ts *)

(** A writable stream that records what it is given: the chunks written,
    in order, and the calls of [end]; [has_end] tells whether the object
    has an [end] function at all. *)
Record Stream : Type := mkStream {
  written : list string;
  has_end : bool;
  end_calls : nat;
}.

Definition stream_write (data : string) (stream : Stream) : Stream :=
  {| written := written stream ++ [data];
     has_end := has_end stream;
     end_calls := end_calls stream |}.

Definition stream_end (stream : Stream) : Stream :=
  {| written := written stream;
     has_end := has_end stream;
     end_calls := S (end_calls stream) |}.

(** The text of the escape ["\n"]. *)
Definition newline : string := String (Ascii.ascii_of_nat 10) EmptyString.

(** The [Transformer] interface, for a destination with state [St]:
    [transform] returns the new state, or [None] when it throws; [close]
    returns the state in which the promise is made. *)
Module Transformer.
Record t (TMeta St : Type) : Type := mk {
  name : string;
  level : option LogLevelName;
  transform : LogEntry TMeta → St → option St;
  close : St → St;
}.
Arguments mk {TMeta St}.
Arguments name {TMeta St}.
Arguments level {TMeta St}.
Arguments transform {TMeta St}.
Arguments close {TMeta St}.
End Transformer.

Module JsonStreamTransportOptions.
Record t (TMeta : Type) : Type := mk {
  level : option LogLevelName;
  serializer : option (LogEntry TMeta → option string);
}.
Arguments mk {TMeta}.
Arguments level {TMeta}.
Arguments serializer {TMeta}.
End JsonStreamTransportOptions.

Section JsonStream.
Context {TMeta : Type}.
(** [JSON.stringify(entry)], or [None] when it throws. *)
Variable JSON_stringify : LogEntry TMeta → option string.
Variable options : JsonStreamTransportOptions.t TMeta.

(** [options.serializer ?? (entry => JSON.stringify(entry) + "\n")];
    a serializer may throw. *)
Definition serialize : LogEntry TMeta → option string :=
  default (λ entry, (λ json, json +:+ newline) <$> JSON_stringify entry)
    (JsonStreamTransportOptions.serializer options).

(** The object returned by [jsonStreamTransport(options)]; [options.stream]
    is the state.  The promise of [close] resolves when the stream reports
    its end, or at once when the stream has no [end]. *)
Definition jsonStreamTransport : Transformer.t TMeta Stream :=
  {| Transformer.name := "json-stream";
     Transformer.level := JsonStreamTransportOptions.level options;
     Transformer.transform := λ entry stream,
       data ← serialize entry;
       Some (stream_write data stream);
     Transformer.close := λ stream,
       if has_end stream then stream_end stream else stream |}.
End JsonStream.

(** The entries given to [transform] one after the other. *)
Fixpoint transform_each {TMeta St} (transport : Transformer.t TMeta St)
    (entries : list (LogEntry TMeta)) (stream : St) : option St :=
  match entries with
  | [] => Some stream
  | entry :: rest =>
      match Transformer.transform transport entry stream with
      | Some stream' => transform_each transport rest stream'
      | None => None
      end
  end.

(** ** Relations between bucket tables *)

Section SamplingInvariants.
Context {TMeta : Type}.
Variable options : SamplingOptions.t TMeta.

(** [T1] is [T2] without some buckets that were at least two windows old
    at time [t]. *)
Definition stale_hidden (t : Z) (T1 T2 : gmap string BucketEntry) : Prop :=
  ∀ k, T1 !! k = T2 !! k ∨
       (T1 !! k = None ∧
        ∃ b, T2 !! k = Some b ∧ t - windowStart b >= windowMs options * 2).

End SamplingInvariants.

(** Every bucket has counted at least one entry. *)
Definition counts_positive (buckets : gmap string BucketEntry) : Prop :=
  ∀ k b, buckets !! k = Some b → 1 <= count b.

(** ** More concrete inputs *)

(** Entries of two keys, in the order of their timestamps. *)
Definition tock (id : string) (time : Z) : LogEntry unit :=
  mkLogEntry id (LogLevel INFO) INFO "tock" time tt None None None.
Definition mixed : list (LogEntry unit) :=
  [tick "a" 0; tock "b" 5; tick "c" 10; tick "d" 15; tock "e" 20].

(** One message 101 times in the same millisecond. *)
Definition flood : list (LogEntry unit) := replicate 101 (tick "x" 0).

(** The crowded table with one more bucket, opened at time 1500. *)
Definition crowded_young : gmap string BucketEntry :=
  <["young" := {| count := 1; windowStart := 1500 |}]> crowded.

(** A limit of zero. *)
Definition mute_options : SamplingOptions.t unit :=
  SamplingOptions.mk None (Some 0) (Some 1000).

(** The bucket of key "tick" after one entry at time 0. *)
Definition half_used : gmap string BucketEntry :=
  {[ "tick" := {| count := 1; windowStart := 0 |} ]}.

(** An entry with an action and no payload size, in a store of two
    objects. *)
Definition boot_meta : OcppExchangeMeta.t :=
  OcppExchangeMeta.mk (Some "CP-7") (Some CALL) (Some "BootNotification")
    (Some IN) None None None None None.
Definition boot_entry : LogEntry loc :=
  mkLogEntry "id-2" (LogLevel INFO) INFO "Message received" 1700000000000
    2%positive None None None.
Definition boot_heap : Heap :=
  {[ 1%positive := OEntry boot_entry; 2%positive := OMeta boot_meta ]}.

(** A stream with [end], nothing written yet; a serializer that gives the
    message text. *)
Definition recorder : Stream :=
  {| written := []; has_end := true; end_calls := 0 |}.
Definition message_json (entry : LogEntry unit) : option string :=
  Some (message entry).
Definition plain_options : JsonStreamTransportOptions.t unit :=
  JsonStreamTransportOptions.mk None None.

(** * Properties *)

(** ** Runs in the monad *)

Section MonadFacts.
Context {S E : Type}.

(** A step that makes no call hands its result and state to the rest. *)
Lemma bind_silent {A B} (m : M S E A) (f : A → M S E B) env s a s1 r :
  m env s = Some (a, s1, []) →
  f a env s1 = r →
  (m ≫= f) env s = r.
Proof.
  intros Hm <-. unfold mbind, M_bind. rewrite Hm.
  by destruct (f a env s1) as [[[b s2] calls]|].
Qed.

Lemma silent_ret {A} (a : A) : silent (mret a : M S E A).
Proof. intros env s a' s' calls [= _ _ <-]. done. Qed.

Lemma silent_gets {A} (f : S → A) : silent (gets f : M S E A).
Proof. intros env s a' s' calls [= _ _ <-]. done. Qed.

Lemma silent_modify (f : S → S) : silent (modify f : M S E unit).
Proof. intros env s a' s' calls [= _ _ <-]. done. Qed.

Lemma silent_throw {A} : silent (throw : M S E A).
Proof. intros env s a' s' calls [=]. Qed.

Lemma silent_bind {A B} (m : M S E A) (f : A → M S E B) :
  silent m → (∀ a, silent (f a)) → silent (m ≫= f).
Proof.
  intros Hm Hf env s b s2 calls. unfold mbind, M_bind.
  destruct (m env s) as [[[a s1] calls1]|] eqn:Hrun; [|done].
  destruct (f a env s1) as [[[b' s2'] calls2]|] eqn:Hrun2; [|done].
  intros [= _ _ <-].
  by rewrite (Hm _ _ _ _ _ Hrun), (Hf _ _ _ _ _ _ Hrun2).
Qed.

Lemma once_next (entry : E) : calls_at_most_once (next entry : M S E unit).
Proof. intros env s. simpl. lia. Qed.

Lemma once_silent {A} (m : M S E A) : silent m → calls_at_most_once m.
Proof.
  intros Hm env s.
  destruct (m env s) as [[[a s1] calls]|] eqn:Hrun; simpl; [|lia].
  rewrite (Hm _ _ _ _ _ Hrun). simpl. lia.
Qed.

Lemma once_bind {A B} (m : M S E A) (f : A → M S E B) :
  silent m → (∀ a, calls_at_most_once (f a)) → calls_at_most_once (m ≫= f).
Proof.
  intros Hm Hf env s. unfold mbind, M_bind.
  destruct (m env s) as [[[a s1] calls1]|] eqn:Hrun; simpl; [|lia].
  specialize (Hf a env s1).
  destruct (f a env s1) as [[[b s2] calls2]|]; simpl in *; [|lia].
  by rewrite (Hm _ _ _ _ _ Hrun).
Qed.

End MonadFacts.

Create HintDb silent.
#[export] Hint Resolve silent_ret silent_gets silent_modify silent_throw
  : silent.

(** ** The sampling stage, one invocation *)

Section SamplingFacts.
Context {TMeta : Type}.
Variable options : SamplingOptions.t TMeta.

Lemma rate_limit_run (entry : LogEntry TMeta) env buckets :
  let key := keyFn options entry in
  let counted :=
    counted_bucket (windowMs options) (timestamp entry) (buckets !! key) in
  rate_limit options entry env buckets
  = Some (tt, <[key := counted]> buckets,
          if bool_decide (count counted <= maxPerWindow options)
          then [entry] else []).
Proof.
  unfold rate_limit, counted_bucket, current_bucket, mbind, M_bind, gets, modify,
    mret, M_ret, next.
  destruct (buckets !! keyFn options entry) as [b|]; simpl.
  - case_bool_decide; simpl.
    + rewrite insert_insert_eq. by case_bool_decide.
    + by case_bool_decide.
  - rewrite insert_insert_eq. by case_bool_decide.
Qed.

(** The loop deletes the buckets that pass its test and no other, whatever
    the order in which the table is visited. *)
Lemma sweep_lookup now (buckets : gmap string BucketEntry) k :
  sweep options now buckets !! k =
    match buckets !! k with
    | Some b =>
        if bool_decide (now - windowStart b >= windowMs options * 2)
        then None else Some b
    | None => None
    end.
Proof.
  unfold sweep.
  cut (∀ acc : gmap string BucketEntry,
    map_fold
      (λ k b acc,
         if bool_decide (now - windowStart b >= windowMs options * 2)
         then delete k acc else acc) acc buckets !! k =
    match buckets !! k with
    | Some b =>
        if bool_decide (now - windowStart b >= windowMs options * 2)
        then None else acc !! k
    | None => acc !! k
    end).
  { intros H. rewrite H. destruct (buckets !! k); [by case_bool_decide | done]. }
  intros acc.
  apply (map_fold_weak_ind (λ r m, r !! k =
    match m !! k with
    | Some b =>
        if bool_decide (now - windowStart b >= windowMs options * 2)
        then None else acc !! k
    | None => acc !! k
    end)).
  - by rewrite lookup_empty.
  - intros i x m r Hi IH.
    destruct (decide (i = k)) as [->|Hne].
    + rewrite lookup_insert_eq. rewrite Hi in IH.
      case_bool_decide; [apply lookup_delete_eq | done].
    + rewrite lookup_insert_ne by done.
      case_bool_decide; [by rewrite lookup_delete_ne | done].
Qed.

Lemma cleanup_run (entry : LogEntry TMeta) env buckets :
  cleanup options entry env buckets
  = Some (tt, after_cleanup options (timestamp entry) buckets, []).
Proof.
  unfold cleanup, after_cleanup, mbind, M_bind, gets, modify, mret, M_ret.
  simpl. by case_bool_decide.
Qed.

Lemma samplingMiddleware_run (entry : LogEntry TMeta) env buckets :
  let key := keyFn options entry in
  let counted :=
    counted_bucket (windowMs options) (timestamp entry) (buckets !! key) in
  samplingMiddleware options entry env buckets
  = Some (tt,
          after_cleanup options (timestamp entry) (<[key := counted]> buckets),
          if bool_decide (count counted <= maxPerWindow options)
          then [entry] else []).
Proof.
  intros key counted. unfold samplingMiddleware, mbind, M_bind.
  rewrite (rate_limit_run entry env buckets), cleanup_run.
  by rewrite app_nil_r.
Qed.

Lemma rate_limit_state (entry : LogEntry TMeta) env buckets mid :
  state_of (rate_limit options entry env buckets) = Some mid →
  mid = <[keyFn options entry :=
            counted_bucket (windowMs options) (timestamp entry)
              (buckets !! keyFn options entry)]> buckets.
Proof. rewrite rate_limit_run. simpl. congruence. Qed.

Lemma after_cleanup_sweeps now (buckets : gmap string BucketEntry) :
  Z.of_nat (size buckets) > 10000 →
  after_cleanup options now buckets = sweep options now buckets.
Proof. intros Hbig. unfold after_cleanup. by rewrite bool_decide_true. Qed.

Lemma after_cleanup_singleton now k b :
  after_cleanup options now {[k := b]} = {[k := b]}.
Proof.
  unfold after_cleanup. rewrite map_size_singleton.
  by rewrite bool_decide_false.
Qed.

(** A bucket that is less than two windows old survives the clean-up. *)
Lemma after_cleanup_lookup_live now buckets k b :
  buckets !! k = Some b →
  now - windowStart b < windowMs options * 2 →
  after_cleanup options now buckets !! k = Some b.
Proof.
  intros Hk Hlive. unfold after_cleanup. case_bool_decide; [|done].
  rewrite sweep_lookup, Hk. case_bool_decide; [lia | done].
Qed.

Lemma swept_state (entry : LogEntry TMeta) env buckets mid :
  state_of (rate_limit options entry env buckets) = Some mid →
  Z.of_nat (size mid) > 10000 →
  state_of (samplingMiddleware options entry env buckets)
  = Some (sweep options (timestamp entry) mid).
Proof.
  intros Hmid Hbig. apply rate_limit_state in Hmid. subst mid.
  rewrite samplingMiddleware_run. simpl state_of.
  by rewrite after_cleanup_sweeps.
Qed.


(** C7.  When the table holds more than 10000 buckets once the entry is
    counted, the clean-up purges exactly the buckets whose window ended at
    least one full window before the entry's timestamp,
    [windowStart + windowMs <= now - windowMs]; that is the same as
    [now - windowStart >= 2 * windowMs]. *)
Theorem sweep_purges_exactly (entry : LogEntry TMeta) env buckets mid :
  state_of (rate_limit options entry env buckets) = Some mid →
  Z.of_nat (size mid) > 10000 →
  ∃ final,
    state_of (samplingMiddleware options entry env buckets) = Some final ∧
    final = filter (λ kb, ¬ (windowStart kb.2 + windowMs options
                             <= timestamp entry - windowMs options)) mid ∧
    ∀ b, windowStart b + windowMs options <= timestamp entry - windowMs options
         ↔ timestamp entry - windowStart b >= 2 * windowMs options.
Proof.
  intros Hmid Hbig. rewrite (swept_state _ _ _ _ Hmid Hbig).
  eexists. split; [done|]. split; [|intros b; lia].
  apply map_eq. intros k. rewrite sweep_lookup, map_lookup_filter.
  destruct (_ !! k) as [b|]; [|done]. simpl.
  case_bool_decide; case_guard; simpl in *; done || lia.
Qed.

(** C3, as the code has it.  When the table holds more than 10000 buckets
    once the entry is counted, the clean-up removes every bucket whose window
    ended at least [windowMs] before the entry's timestamp
    ([windowStart + windowMs <= now - windowMs]) and removes no bucket whose
    window ended more recently than that. *)
Theorem sweep_removes_after_one_window (entry : LogEntry TMeta) env buckets
    mid :
  state_of (rate_limit options entry env buckets) = Some mid →
  Z.of_nat (size mid) > 10000 →
  ∃ final,
    state_of (samplingMiddleware options entry env buckets) = Some final ∧
    ∀ k,
      match mid !! k with
      | Some b =>
          (windowStart b + windowMs options
             <= timestamp entry - windowMs options →
           final !! k = None) ∧
          (windowStart b + windowMs options
             > timestamp entry - windowMs options →
           final !! k = Some b)
      | None => final !! k = None
      end.
Proof.
  intros Hmid Hbig. rewrite (swept_state _ _ _ _ Hmid Hbig).
  eexists. split; [done|]. intros k. rewrite sweep_lookup.
  destruct (_ !! k) as [b|]; [|done].
  case_bool_decide; split; intros; done || lia.
Qed.

End SamplingFacts.

(** ** The sampling stage, sequences of invocations *)

Section SamplingRuns.
Context {TMeta : Type}.
Variable options : SamplingOptions.t TMeta.

(** Inside one window of a key every entry of that key is counted in the
    same bucket: the [i]-th goes through when the count reaches at most
    [maxPerWindow]. *)
Lemma feed_in_window (entries : list (LogEntry TMeta)) key start :
  0 < windowMs options →
  (∀ e, e ∈ entries →
     keyFn options e = key ∧ timestamp e - start < windowMs options) →
  ∀ clock buckets c,
    buckets !! key = Some {| count := c; windowStart := start |} →
    ∃ final,
      feed (samplingMiddleware options) clock entries buckets =
        Some (imap (λ i e,
                      if bool_decide (c + Z.of_nat i + 1 <= maxPerWindow options)
                      then [e] else []) entries,
              final).
Proof.
  intros Hw. induction entries as [|e es IH]; intros Hin clock buckets c Hb.
  - by eexists.
  - destruct (Hin e) as [Hkey Ht]; [left|].
    simpl feed. rewrite samplingMiddleware_run.
    assert (counted_bucket (windowMs options) (timestamp e)
              (buckets !! keyFn options e)
            = {| count := c + 1; windowStart := start |}) as Hc.
    { unfold counted_bucket, current_bucket. rewrite Hkey, Hb. simpl.
      case_bool_decide; [lia | done]. }
    rewrite Hc, Hkey. simpl count.
    edestruct (IH (λ e' He', Hin e' (list_elem_of_further _ _ _ He'))
                 (λ i, clock (Datatypes.S i))
                 (after_cleanup options (timestamp e)
                    (<[key := {| count := c + 1; windowStart := start |}]>
                       buckets))
                 (c + 1)) as [final Hfinal].
    { apply after_cleanup_lookup_live; [apply lookup_insert_eq | simpl; lia]. }
    rewrite Hfinal. eexists. f_equal. f_equal.
    rewrite imap_cons. f_equal.
    + replace (c + Z.of_nat 0 + 1) with (c + 1) by lia. done.
    + apply imap_ext. intros i x _. simpl.
      replace (c + 1 + Z.of_nat i + 1)
        with (c + Z.of_nat (Datatypes.S i) + 1) by lia.
      done.
Qed.

(** The entries that went through are a prefix. *)
Lemma concat_admitted_prefix (entries : list (LogEntry TMeta)) (limit : Z) :
  ∀ c, 0 <= c →
    concat (imap (λ i e,
                    if bool_decide (c + Z.of_nat i + 1 <= limit)
                    then [e] else []) entries)
    = take (Z.to_nat (limit - c)) entries.
Proof.
  induction entries as [|e es IH]; intros c Hc.
  - by rewrite take_nil.
  - rewrite imap_cons. simpl concat.
    erewrite imap_ext; [rewrite (IH (c + 1)) by lia|].
    2:{ intros i x _. simpl.
        replace (c + Z.of_nat (Datatypes.S i) + 1)
          with (c + 1 + Z.of_nat i + 1) by lia.
        done. }
    case_bool_decide as Hle.
    + replace (Z.to_nat (limit - c))
        with (Datatypes.S (Z.to_nat (limit - (c + 1)))) by lia.
      done.
    + replace (Z.to_nat (limit - c)) with O by lia.
      replace (Z.to_nat (limit - (c + 1))) with O by lia.
      done.
Qed.

(** C1.  Entries of one key whose timestamps all lie within [windowMs] of
    the first one's, given to an instance in which the first one opens a
    window for that key (no bucket, or an expired one): the [i]-th
    invocation (from 0) calls [next], with its own entry, exactly when
    [i < maxPerWindow], so the [(maxPerWindow+1)]-th entry is the first one
    dropped; the forwarded entries are the first [maxPerWindow] of the
    sequence, in order, and there are [min n maxPerWindow] of them. *)
Theorem sampling_one_window clock buckets (entries : list (LogEntry TMeta)) :
  (∀ first e, head entries = Some first → e ∈ entries →
     keyFn options e = keyFn options first ∧
     timestamp e - timestamp first < windowMs options) →
  (∀ first b, head entries = Some first →
     buckets !! keyFn options first = Some b →
     timestamp first - windowStart b >= windowMs options) →
  ∃ calls final,
    feed (samplingMiddleware options) clock entries buckets
    = Some (calls, final) ∧
    calls = imap (λ i e,
                    if bool_decide (Z.of_nat i < maxPerWindow options)
                    then [e] else []) entries ∧
    concat calls = take (Z.to_nat (maxPerWindow options)) entries ∧
    (0 <= maxPerWindow options →
     Z.of_nat (length (concat calls))
     = Z.min (Z.of_nat (length entries)) (maxPerWindow options)).
Proof.
  intros Hwin Hopen.
  set (expected := imap (λ i e,
                    if bool_decide (Z.of_nat i < maxPerWindow options)
                    then [e] else []) entries).
  assert (∃ final, feed (samplingMiddleware options) clock entries buckets
                   = Some (expected, final)) as [final Hfeed].
  { subst expected. destruct entries as [|first rest]; [by eexists|].
    destruct (Hwin first first eq_refl) as [_ Hw]; [left|].
    assert (0 < windowMs options) as Hpos by lia.
    simpl feed. rewrite samplingMiddleware_run.
    assert (counted_bucket (windowMs options) (timestamp first)
              (buckets !! keyFn options first)
            = {| count := 1; windowStart := timestamp first |}) as Hc.
    { unfold counted_bucket, current_bucket.
      destruct (buckets !! keyFn options first) as [b|] eqn:Hb; [|done].
      specialize (Hopen first b eq_refl Hb). by rewrite bool_decide_true. }
    rewrite Hc. simpl count.
    edestruct (feed_in_window rest (keyFn options first) (timestamp first)
                 Hpos)
      with (c := 1) as [final Hfinal]; last rewrite Hfinal.
    { intros e He. apply (Hwin first e eq_refl). by right. }
    { apply after_cleanup_lookup_live; [apply lookup_insert_eq | simpl; lia]. }
    eexists. f_equal. f_equal. rewrite imap_cons. f_equal.
    - repeat case_bool_decide; done || lia.
    - apply imap_ext. intros i x _. simpl.
      repeat case_bool_decide; done || lia. }
  exists expected, final.
  split; [done|]. split; [done|].
  assert (concat expected = take (Z.to_nat (maxPerWindow options)) entries)
    as Hcat.
  { trans (take (Z.to_nat (maxPerWindow options - 0)) entries);
      [|by rewrite Z.sub_0_r].
    rewrite <- (concat_admitted_prefix entries (maxPerWindow options) 0) by lia.
    f_equal. apply imap_ext. intros i x _. simpl.
    repeat case_bool_decide; done || lia. }
  split; [done|]. intros Hmax. rewrite Hcat, length_take. lia.
Qed.

(** C6.  The stage takes time from the entries only.  Two runs from the
    same table, over sequences of entries that agree on keys and timestamps,
    at whatever wall-clock times, both return, take the same decisions and
    leave the same table. *)
Theorem sampling_reads_entry_time_only clock1 clock2
    (entries1 entries2 : list (LogEntry TMeta)) buckets :
  Forall2 (same_key_time options) entries1 entries2 →
  ∃ calls1 calls2 final,
    feed (samplingMiddleware options) clock1 entries1 buckets
    = Some (calls1, final) ∧
    feed (samplingMiddleware options) clock2 entries2 buckets
    = Some (calls2, final) ∧
    admitted <$> calls1 = admitted <$> calls2.
Proof.
  intros Hsame. revert clock1 clock2 buckets.
  induction Hsame as [|e1 e2 es1 es2 [Hkey Htime] _ IH];
    intros clock1 clock2 buckets.
  - by exists [], [], buckets.
  - simpl feed. rewrite !samplingMiddleware_run, <- Hkey, <- Htime.
    edestruct IH as (calls1 & calls2 & final & -> & -> & Hadm).
    eexists _, _, final. split; [done|]. split; [done|].
    rewrite !fmap_cons, Hadm. by case_bool_decide.
Qed.

(** A run over entries of one key, on a table that holds at most the bucket
    of that key, follows [one_key_decisions]. *)
Lemma feed_one_key key (entries : list (LogEntry TMeta)) :
  Forall (λ e, keyFn options e = key) entries →
  ∀ clock found,
    ∃ final,
      feed (samplingMiddleware options) clock entries
        (from_option (λ b, {[key := b]}) ∅ found)
      = Some (zip_with (λ e (d : bool), if d then [e] else []) entries
                (one_key_decisions (maxPerWindow options) (windowMs options)
                   found (timestamp <$> entries)),
              final).
Proof.
  induction 1 as [|e es Hkey _ IH]; intros clock found; [by eexists|].
  simpl feed. rewrite samplingMiddleware_run, Hkey.
  set (counted := counted_bucket _ _ _).
  assert (counted = counted_bucket (windowMs options) (timestamp e) found)
    as ->.
  { unfold counted. f_equal. destruct found; simpl.
    - apply lookup_singleton_eq.
    - apply lookup_empty. }
  set (counted := counted_bucket _ _ _).
  assert (after_cleanup options (timestamp e)
            (<[key := counted]> (from_option (λ b, {[key := b]}) ∅ found))
          = from_option (λ b, {[key := b]}) ∅ (Some counted)) as ->.
  { destruct found; simpl.
    - by rewrite insert_singleton_eq, after_cleanup_singleton.
    - by rewrite insert_empty, after_cleanup_singleton. }
  destruct (IH (λ i, clock (Datatypes.S i)) (Some counted)) as [final ->].
  eexists. rewrite fmap_cons. simpl. done.
Qed.

(** C4.  With [maxPerWindow = 10] and [windowMs = 1000], twelve entries of
    one key at times 0 (ten of them), 500 and 1001, given to a new instance:
    the first ten are forwarded, the eleventh is dropped, the twelfth is
    forwarded. *)
Theorem sampling_ten_per_second clock key (entries : list (LogEntry TMeta)) :
  maxPerWindow options = 10 →
  windowMs options = 1000 →
  Forall (λ e, keyFn options e = key) entries →
  timestamp <$> entries = replicate 10 0 ++ [500; 1001] →
  ∃ calls final,
    feed (samplingMiddleware options) clock entries ∅ = Some (calls, final) ∧
    admitted <$> calls = replicate 10 true ++ [false; true] ∧
    concat calls = take 10 entries ++ drop 11 entries.
Proof.
  intros Hmax Hwin Hkeys Htimes.
  destruct (feed_one_key key entries Hkeys clock None) as [final Hfeed].
  simpl from_option in Hfeed. rewrite Hmax, Hwin, Htimes in Hfeed.
  eexists _, final. split; [exact Hfeed|].
  do 13 (destruct entries as [|? entries]; try discriminate Htimes).
  split; reflexivity.
Qed.

End SamplingRuns.

(** C9.  An instance made without options, or without one of them, takes
    the message text as key, 100 as [maxPerWindow] and 60000 ms as
    [windowMs]: the omitted options resolve to these values; an invocation
    counts the entry in the bucket under that key, opens a new window when
    the one found is that many milliseconds old, and calls [next] exactly
    when the count is within that limit; and a new instance made without
    options, given entries of one message within 60000 ms of the first,
    forwards the first 100 of them and no other. *)
Theorem sampling_defaults {TMeta} :
  (∀ limit window (entry : LogEntry TMeta),
     keyFn (SamplingOptions.mk None limit window) entry = message entry) ∧
  (∀ key window,
     maxPerWindow (TMeta := TMeta) (SamplingOptions.mk key None window)
     = 100) ∧
  (∀ key limit,
     windowMs (TMeta := TMeta) (SamplingOptions.mk key limit None) = 60000) ∧
  samplingMiddleware (TMeta := TMeta) SamplingOptions.empty
  = samplingMiddleware
      (SamplingOptions.mk (Some message) (Some 100) (Some 60000)) ∧
  (∀ (options : SamplingOptions.t TMeta) (entry : LogEntry TMeta) env buckets,
     let key := default message (SamplingOptions.keyFn options) entry in
     let limit := default 100 (SamplingOptions.maxPerWindow options) in
     let window := default 60000 (SamplingOptions.windowMs options) in
     let now := timestamp entry in
     ∃ counted final,
       match buckets !! key with
       | None => counted = {| count := 0 + 1; windowStart := now |}
       | Some b =>
           if bool_decide (now - windowStart b >= window)
           then counted = {| count := 0 + 1; windowStart := now |}
           else counted = {| count := count b + 1;
                             windowStart := windowStart b |}
       end ∧
       rate_limit options entry env buckets
       = Some (tt, <[key := counted]> buckets,
               if bool_decide (count counted <= limit) then [entry] else []) ∧
       samplingMiddleware options entry env buckets
       = Some (tt, final,
               if bool_decide (count counted <= limit) then [entry] else [])) ∧
  (∀ clock (entries : list (LogEntry TMeta)),
     (∀ first e, head entries = Some first → e ∈ entries →
        message e = message first ∧
        timestamp e - timestamp first < 60000) →
     ∃ calls final,
       feed (samplingMiddleware SamplingOptions.empty) clock entries ∅
       = Some (calls, final) ∧
       calls = imap (λ i e, if bool_decide (i < 100)%nat then [e] else [])
                 entries ∧
       concat calls = take 100 entries).
Proof.
  do 4 (split; [reflexivity|]). split.
  - intros options entry env buckets key limit window now.
    exists (counted_bucket window now (buckets !! key)),
      (after_cleanup options now
         (<[key := counted_bucket window now (buckets !! key)]> buckets)).
    split; [|split].
    + unfold counted_bucket, current_bucket.
      destruct (buckets !! key) as [b|]; [|done]. by case_bool_decide.
    + apply rate_limit_run.
    + apply samplingMiddleware_run.
  - intros clock entries Hwin.
    set (options := @SamplingOptions.empty TMeta).
    assert (∃ final,
              feed (samplingMiddleware options) clock entries ∅
              = Some (imap (λ i e, if bool_decide (i < 100)%nat
                                   then [e] else []) entries, final))
      as [final Hfeed].
    { destruct entries as [|first rest]; [by eexists|].
      simpl feed. rewrite samplingMiddleware_run, lookup_empty.
      change (counted_bucket (windowMs options) (timestamp first) None)
        with {| count := 1; windowStart := timestamp first |}.
      edestruct (feed_in_window options rest (message first)
                   (timestamp first))
        with (c := 1) as [final Hfinal]; last rewrite Hfinal.
      { reflexivity. }
      { intros e He. apply (Hwin first e eq_refl). by right. }
      { apply after_cleanup_lookup_live; [apply lookup_insert_eq|].
        simpl. change (windowMs options) with 60000. lia. }
      eexists. f_equal. f_equal. rewrite imap_cons. f_equal.
      apply imap_ext. intros i x _. simpl.
      change (maxPerWindow options) with 100.
      repeat case_bool_decide; done || lia. }
    eexists _, final. split; [exact Hfeed|]. split; [done|].
    trans (take (Z.to_nat (100 - 0)) entries); [|done].
    rewrite <- (concat_admitted_prefix entries 100 0) by lia.
    f_equal. apply imap_ext. intros i x _. simpl.
    repeat case_bool_decide; done || lia.
Qed.

(** ** The level table *)

(** C8.  The levels are 10, 20, 30, 40, 50 and 60 in increasing order, and
    [SILENT] is infinite: it is greater than every finite number, so no
    finite level [x] satisfies [x >= SILENT]. *)
Theorem levels_ordered :
  LogLevel TRACE = Number.of_Z 10 ∧ LogLevel DEBUG = Number.of_Z 20 ∧
  LogLevel INFO = Number.of_Z 30 ∧ LogLevel WARN = Number.of_Z 40 ∧
  LogLevel ERROR = Number.of_Z 50 ∧ LogLevel FATAL = Number.of_Z 60 ∧
  Number.lt (LogLevel TRACE) (LogLevel DEBUG) = true ∧
  Number.lt (LogLevel DEBUG) (LogLevel INFO) = true ∧
  Number.lt (LogLevel INFO) (LogLevel WARN) = true ∧
  Number.lt (LogLevel WARN) (LogLevel ERROR) = true ∧
  Number.lt (LogLevel ERROR) (LogLevel FATAL) = true ∧
  LogLevel SILENT = Number.Infinity ∧
  ∀ x : Number.number,
    Number.isFinite x = true →
    Number.gt (LogLevel SILENT) x = true ∧
    Number.ge x (LogLevel SILENT) = false.
Proof.
  repeat (split; [reflexivity|]).
  intros x Hfin. by destruct x.
Qed.

(** ** A crowded table *)

Lemma crowded_keys_NoDup :
  NoDup ((λ i : Z, (pretty i, {| count := 1; windowStart := 0 |}))
           <$> seqZ 0 10001).*1.
Proof.
  rewrite <- list_fmap_compose. apply NoDup_fmap_2; [|apply NoDup_seqZ].
  intros i j Hij. simpl in Hij. by apply (inj pretty).
Qed.

Lemma crowded_size : size crowded = Z.to_nat 10001.
Proof.
  unfold crowded. rewrite map_size_list_to_map by apply crowded_keys_NoDup.
  by rewrite length_fmap, length_seqZ.
Qed.

Lemma crowded_lookup (i : Z) :
  0 <= i < 10001 →
  crowded !! pretty i = Some {| count := 1; windowStart := 0 |}.
Proof.
  intros Hi. unfold crowded.
  apply elem_of_list_to_map_1; [apply crowded_keys_NoDup|].
  apply (list_elem_of_fmap_2
           (λ i : Z, (pretty i, {| count := 1; windowStart := 0 |}))).
  apply elem_of_seqZ. lia.
Qed.

(** From here on the table is used through the lemmas above only. *)
#[local] Opaque crowded.

(** The probe finds the bucket of key "0" expired and opens a new one. *)
Lemma probe_mid env :
  state_of (rate_limit probe_options probe env crowded)
  = Some (<["0" := {| count := 1; windowStart := 2000 |}]> crowded).
Proof.
  rewrite rate_limit_run. unfold state_of.
  replace (counted_bucket (windowMs probe_options) (timestamp probe)
             (crowded !! keyFn probe_options probe))
    with {| count := 1; windowStart := 2000 |}; [reflexivity|].
  unfold counted_bucket, current_bucket.
  change (keyFn probe_options probe) with (pretty 0).
  rewrite crowded_lookup by lia. reflexivity.
Qed.

Lemma probe_mid_size :
  Z.of_nat (size (<["0" := {| count := 1; windowStart := 2000 |}]> crowded))
  > 10000.
Proof.
  rewrite map_size_insert_Some; [rewrite crowded_size; lia|].
  change "0"%string with (pretty 0).
  rewrite crowded_lookup by lia. by eexists.
Qed.

Lemma probe_mid_lookup_1 :
  (<["0" := {| count := 1; windowStart := 2000 |}]> crowded) !! "1"
  = Some {| count := 1; windowStart := 0 |}.
Proof. rewrite lookup_insert_ne by done. apply (crowded_lookup 1). lia. Qed.

(** C3, as stated, fails.  With [windowMs = 1000] the bucket of key "1" was
    opened at time 0, so its window ended at 1000; the probe comes at 2000
    into a table of 10001 buckets.  The window ended after
    [2000 - 2 * 1000 = 0], that is less than [2 * windowMs] ago, and the
    bucket is removed all the same. *)
Lemma sweep_two_windows_counterexample :
  ∃ mid final b,
    state_of (rate_limit probe_options probe {| date_now := 0 |} crowded)
    = Some mid ∧
    Z.of_nat (size mid) > 10000 ∧
    state_of (samplingMiddleware probe_options probe {| date_now := 0 |}
                crowded)
    = Some final ∧
    mid !! "1" = Some b ∧
    windowStart b + windowMs probe_options
    > timestamp probe - 2 * windowMs probe_options ∧
    final !! "1" = None.
Proof.
  exists (<["0" := {| count := 1; windowStart := 2000 |}]> crowded).
  exists (sweep probe_options (timestamp probe)
            (<["0" := {| count := 1; windowStart := 2000 |}]> crowded)),
         {| count := 1; windowStart := 0 |}.
  split; [apply probe_mid|]. split; [apply probe_mid_size|].
  split; [apply (swept_state _ _ _ _ _ (probe_mid _) probe_mid_size)|].
  split; [apply probe_mid_lookup_1|]. split; [vm_compute; done|].
  rewrite sweep_lookup, probe_mid_lookup_1. reflexivity.
Qed.

(** ** The OCPP stage *)

Lemma silent_alloc {E} o : silent (alloc (E:=E) o).
Proof. intros env s a' s' calls [= _ _ <-]. done. Qed.

Lemma silent_store {E} l o : silent (store (E:=E) l o).
Proof. apply silent_modify. Qed.

Lemma silent_load_entry {E} l : silent (load_entry (E:=E) l).
Proof.
  apply silent_bind; [apply silent_gets|].
  intros [[]|]; auto with silent.
Qed.

Lemma silent_load_meta {E} l : silent (load_meta (E:=E) l).
Proof.
  apply silent_bind; [apply silent_gets|].
  intros [[]|]; auto with silent.
Qed.

#[export] Hint Resolve silent_alloc silent_store silent_load_entry
  silent_load_meta : silent.

Lemma load_entry_run {E} l e env (h : Heap) :
  h !! l = Some (OEntry e) → load_entry (E:=E) l env h = Some (e, h, []).
Proof. intros H. unfold load_entry, mbind, M_bind, gets. by rewrite H. Qed.

Lemma load_meta_run {E} l m env (h : Heap) :
  h !! l = Some (OMeta m) → load_meta (E:=E) l env h = Some (m, h, []).
Proof. intros H. unfold load_meta, mbind, M_bind, gets. by rewrite H. Qed.

Lemma set_payloadSize_same m :
  set_payloadSize (OcppExchangeMeta.payloadSize m) m = m.
Proof. by destruct m. Qed.

Lemma set_correlationId_same {A} (e : LogEntry A) :
  set_correlationId (correlationId e) e = e.
Proof. by destruct e. Qed.

(** Run the steps that make no call, up to the next branch. *)
Ltac ocpp_steps :=
  repeat (eapply bind_silent;
          [ first [ reflexivity
                  | apply load_entry_run; by simplify_map_eq
                  | apply load_meta_run; by simplify_map_eq ] | ]).

Section OcppFacts.
Variable JSON_stringify_length : OcppExchangeMeta.t → option Z.
Variable options : OcppMiddlewareOptions.t.

Lemma ocppMiddleware_once entry :
  calls_at_most_once (ocppMiddleware JSON_stringify_length options entry).
Proof.
  unfold ocppMiddleware.
  repeat (apply once_bind; [repeat case_match; auto with silent | intros ?]).
  apply once_next.
Qed.

(** The run on an entry object that has a meta object: two new objects,
    the rest of the store as it was. *)
Lemma ocppMiddleware_run entry env (h : Heap) e m :
  h !! entry = Some (OEntry e) →
  h !! meta e = Some (OMeta m) →
  let enriched := fresh (dom h) in
  let copy := fresh (dom (<[enriched := OEntry e]> h)) in
  ∃ h',
    ocppMiddleware JSON_stringify_length options entry env h
    = Some (tt, h', [enriched]) ∧
    h' !! enriched
    = Some (OEntry (set_correlationId (enriched_correlationId options e m)
                      (set_meta copy e))) ∧
    h' !! copy
    = Some (OMeta (set_payloadSize
                     (enriched_payloadSize JSON_stringify_length options m)
                     m)) ∧
    ∀ l, l ≠ enriched → l ≠ copy → h' !! l = h !! l.
Proof.
  intros Hentry Hmeta enriched copy.
  assert (enriched ∉ dom h) as Hfresh1 by apply is_fresh.
  assert (copy ∉ dom (<[enriched := OEntry e]> h)) as Hfresh2
    by apply is_fresh.
  assert (copy ≠ enriched) as Hne.
  { intros ->. apply Hfresh2. rewrite dom_insert. set_solver. }
  assert (meta e ≠ enriched) as Hne1.
  { intros Heq. apply Hfresh1. rewrite <- Heq. apply elem_of_dom. by eexists. }
  unfold ocppMiddleware, enriched_payloadSize, enriched_correlationId.
  destruct (autoPayloadSize options
            && bool_decide (OcppExchangeMeta.payloadSize m = None)
            && truthy (OcppExchangeMeta.action m)) eqn:Hpay;
    [destruct (JSON_stringify_length m) as [n|] eqn:Hjson|];
    (destruct (propagateCorrelationId options
              && truthy (OcppExchangeMeta.correlationId m)
              && negb (truthy (correlationId e))) eqn:Hcorr);
    rewrite ?set_payloadSize_same, ?set_correlationId_same;
    (eexists; split;
     [do 3 (ocpp_steps; fold enriched; fold copy;
            cbn [set_payloadSize set_meta set_correlationId meta correlationId
                 OcppExchangeMeta.payloadSize OcppExchangeMeta.action
                 OcppExchangeMeta.correlationId];
            rewrite ?Hpay, ?Hjson, ?Hcorr); reflexivity | ]).
  all: repeat split; intros; by simplify_map_eq.
Qed.

(** C10, as the code has it.  On an entry object with a meta object the
    stage returns after one call of [next], on a new entry object that
    refers to a new meta object; every object that existed before, the entry
    and its meta among them, is as it was.  The new objects are copies up to
    two fields: [payloadSize] differs only if it was undefined and [action]
    is present; the entry-level [correlationId] differs only if it is taken
    from the meta and was absent or the empty string, and a non-empty
    entry-level [correlationId] is kept. *)
Theorem ocpp_enriches_a_copy entry env (h : Heap) e m :
  h !! entry = Some (OEntry e) →
  h !! meta e = Some (OMeta m) →
  ∃ h' enriched copy e' m',
    ocppMiddleware JSON_stringify_length options entry env h
    = Some (tt, h', [enriched]) ∧
    (∀ l, l ∈ dom h → h' !! l = h !! l) ∧
    (enriched ∉ dom h) ∧ (copy ∉ dom h) ∧
    h' !! enriched = Some (OEntry e') ∧
    meta e' = copy ∧
    h' !! copy = Some (OMeta m') ∧
    e' = set_correlationId (correlationId e') (set_meta copy e) ∧
    m' = set_payloadSize (OcppExchangeMeta.payloadSize m') m ∧
    (OcppExchangeMeta.payloadSize m' ≠ OcppExchangeMeta.payloadSize m →
       OcppExchangeMeta.payloadSize m = None ∧
       is_Some (OcppExchangeMeta.action m)) ∧
    (correlationId e' ≠ correlationId e →
       correlationId e' = OcppExchangeMeta.correlationId m ∧
       (correlationId e = None ∨ correlationId e = Some EmptyString)) ∧
    (∀ c, correlationId e = Some c → c ≠ EmptyString →
       correlationId e' = Some c).
Proof.
  intros Hentry Hmeta.
  destruct (ocppMiddleware_run entry env h e m Hentry Hmeta)
    as (h' & Hrun & Henriched & Hcopy & Hframe).
  set (enriched := fresh (dom h)) in *.
  set (copy := fresh (dom (<[enriched := OEntry e]> h))) in *.
  assert (enriched ∉ dom h) as Hfresh1 by apply is_fresh.
  assert (copy ∉ dom h) as Hfresh2.
  { intros Hin. apply (is_fresh (dom (<[enriched := OEntry e]> h))).
    fold copy. rewrite dom_insert. set_solver. }
  exists h', enriched, copy,
    (set_correlationId (enriched_correlationId options e m)
       (set_meta copy e)),
    (set_payloadSize (enriched_payloadSize JSON_stringify_length options m)
       m).
  split; [exact Hrun|]. split.
  { intros l Hl. apply Hframe; intros ->; done. }
  do 2 (split; [done|]). split; [exact Henriched|].
  split; [done|]. split; [exact Hcopy|].
  split; [done|]. split; [done|].
  cbn [set_payloadSize set_meta set_correlationId meta correlationId
       OcppExchangeMeta.payloadSize].
  unfold enriched_payloadSize, enriched_correlationId.
  split; [|split].
  - destruct (autoPayloadSize options); simpl; [|done].
    case_bool_decide as Hnone; simpl; [|done].
    destruct (OcppExchangeMeta.action m) as [a|]; simpl; [|done].
    intros _. split; [done|by eexists].
  - destruct (propagateCorrelationId options); simpl; [|done].
    destruct (truthy (OcppExchangeMeta.correlationId m)); simpl; [|done].
    destruct (correlationId e) as [[|c cs]|]; simpl; auto; done.
  - intros c Hc Hne. rewrite Hc.
    destruct c as [|c cs]; [done|]. simpl. by rewrite !andb_false_r.
Qed.

End OcppFacts.

(** C10, as stated, fails.  The entry of [sample_heap] has the empty string
    as its [correlationId]: the field is set, and the entry that reaches
    [next] carries the meta's "corr-42" in its place. *)
Lemma ocpp_overwrites_empty_correlationId :
  ∃ h' enriched e',
    sample_heap !! 1%positive = Some (OEntry sample_entry) ∧
    correlationId sample_entry = Some EmptyString ∧
    ocppMiddleware (λ _, None) OcppMiddlewareOptions.empty 1%positive
      {| date_now := 0 |} sample_heap
    = Some (tt, h', [enriched]) ∧
    h' !! enriched = Some (OEntry e') ∧
    correlationId e' = Some "corr-42"%string.
Proof.
  eexists _, _, _. split; [reflexivity|]. split; [reflexivity|].
  split; [vm_compute; reflexivity|].
  split; [vm_compute; reflexivity|]. reflexivity.
Qed.

(** ** Every stage calls [next] at most once *)

(** C5.  In every run of the closure made by [samplingMiddleware] and of
    the closure made by [ocppMiddleware], whatever the options, the entry
    and the state, [next] is called at most once. *)
Theorem stages_call_next_at_most_once :
  (∀ TMeta (options : SamplingOptions.t TMeta) (entry : LogEntry TMeta)
     env buckets,
     (length (calls_of (samplingMiddleware options entry env buckets)) <= 1)%nat)
  ∧
  (∀ JSON_stringify_length options entry env (h : Heap),
     (length (calls_of (ocppMiddleware JSON_stringify_length options entry
                          env h)) <= 1)%nat).
Proof.
  split.
  - intros TMeta options entry env buckets.
    rewrite samplingMiddleware_run. simpl.
    case_bool_decide; simpl; lia.
  - intros JSON_stringify_length options entry env h.
    apply ocppMiddleware_once.
Qed.

(** ** The theorems at concrete inputs *)

(** Three entries within one second, two allowed: the third is dropped. *)
Lemma sampling_one_window_witness :
  ∃ calls final,
    feed (samplingMiddleware burst_options) (λ _, 0) burst ∅
    = Some (calls, final) ∧
    calls = [[tick "a" 0]; [tick "b" 10]; []] ∧
    concat calls = [tick "a" 0; tick "b" 10] ∧
    Z.of_nat (length (concat calls)) = 2.
Proof.
  destruct (sampling_one_window burst_options (λ _, 0) ∅ burst)
    as (calls & final & Hfeed & Hcalls & Hcat & Hlen).
  - intros first e [= <-] He.
    repeat (apply elem_of_cons in He as [->|He]);
      [| | |by apply elem_of_nil in He];
      (split; [reflexivity | by vm_compute]).
  - intros first b _ Hb. by rewrite lookup_empty in Hb.
  - exists calls, final.
    split; [exact Hfeed|]. split; [exact Hcalls|]. split; [exact Hcat|].
    apply Hlen. by vm_compute.
Defined.

(** The probe sweeps the crowded table. *)
Lemma sweep_removes_after_one_window_witness :
  ∃ final,
    state_of (samplingMiddleware probe_options probe {| date_now := 0 |}
                crowded)
    = Some final ∧
    final !! "1" = None.
Proof.
  destruct (sweep_removes_after_one_window probe_options probe
              {| date_now := 0 |} crowded _ (probe_mid _) probe_mid_size)
    as (final & Hfinal & Hsweep).
  exists final. split; [exact Hfinal|].
  specialize (Hsweep "1"%string). rewrite probe_mid_lookup_1 in Hsweep.
  apply Hsweep. by vm_compute.
Defined.

Lemma sweep_purges_exactly_witness :
  ∃ final,
    state_of (samplingMiddleware probe_options probe {| date_now := 0 |}
                crowded)
    = Some final ∧
    final = filter (λ kb, ¬ (windowStart kb.2 + 1000 <= 2000 - 1000))
              (<["0" := {| count := 1; windowStart := 2000 |}]> crowded).
Proof.
  destruct (sweep_purges_exactly probe_options probe {| date_now := 0 |}
              crowded _ (probe_mid _) probe_mid_size)
    as (final & Hfinal & Hfilter & _).
  exists final. split; [exact Hfinal | exact Hfilter].
Defined.

Lemma sampling_ten_per_second_witness :
  ∃ calls final,
    feed (samplingMiddleware probe_options) (λ _, 0) twelve ∅
    = Some (calls, final) ∧
    admitted <$> calls = replicate 10 true ++ [false; true] ∧
    concat calls = take 10 twelve ++ drop 11 twelve.
Proof.
  apply (sampling_ten_per_second probe_options (λ _, 0) "tick" twelve).
  - reflexivity.
  - reflexivity.
  - unfold twelve. simpl. repeat constructor.
  - reflexivity.
Defined.

(** The same events under other ids, at other wall-clock times. *)
Lemma sampling_reads_entry_time_only_witness :
  ∃ calls1 calls2 final,
    feed (samplingMiddleware burst_options) (λ _, 0) burst ∅
    = Some (calls1, final) ∧
    feed (samplingMiddleware burst_options) (λ i, 1000 + Z.of_nat i)
      burst_again ∅
    = Some (calls2, final) ∧
    admitted <$> calls1 = admitted <$> calls2.
Proof.
  apply (sampling_reads_entry_time_only burst_options).
  unfold burst, burst_again. repeat constructor.
Defined.

Lemma levels_ordered_witness :
  Number.isFinite (LogLevel FATAL) = true ∧
  Number.gt (LogLevel SILENT) (LogLevel FATAL) = true ∧
  Number.ge (LogLevel FATAL) (LogLevel SILENT) = false.
Proof.
  split; [reflexivity|].
  pose proof levels_ordered as H. repeat destruct H as [_ H].
  apply H. reflexivity.
Defined.

Lemma ocpp_enriches_a_copy_witness :
  sample_heap !! 1%positive = Some (OEntry sample_entry) ∧
  sample_heap !! meta sample_entry = Some (OMeta sample_meta) ∧
  ∃ h' enriched,
    ocppMiddleware (λ _, Some 2) OcppMiddlewareOptions.empty 1%positive
      {| date_now := 0 |} sample_heap
    = Some (tt, h', [enriched]) ∧
    h' !! 1%positive = Some (OEntry sample_entry) ∧
    h' !! 2%positive = Some (OMeta sample_meta).
Proof.
  split; [reflexivity|]. split; [reflexivity|].
  destruct (ocpp_enriches_a_copy (λ _, Some 2) OcppMiddlewareOptions.empty
              1%positive {| date_now := 0 |} sample_heap sample_entry
              sample_meta eq_refl eq_refl)
    as (h' & enriched & copy & e' & m' & Hrun & Hframe & _).
  exists h', enriched. split; [exact Hrun|].
  split; apply Hframe; by vm_compute.
Defined.

(** * Further properties *)

(** ** The sampling stage: clean-up, keys, quota *)

Section SamplingCleanup.
Context {TMeta : Type}.
Variable options : SamplingOptions.t TMeta.

Lemma counted_bucket_hidden t0 now T1 T2 k :
  0 <= windowMs options → stale_hidden options t0 T1 T2 → t0 <= now →
  counted_bucket (windowMs options) now (T1 !! k)
  = counted_bucket (windowMs options) now (T2 !! k).
Proof.
  intros Hw Hrel Hle.
  destruct (Hrel k) as [-> | (-> & b & -> & Hstale)]; [done|].
  unfold counted_bucket, current_bucket.
  by rewrite bool_decide_true by lia.
Qed.

Lemma stale_hidden_step t0 now T1 T2 k c :
  stale_hidden options t0 T1 T2 → t0 <= now →
  stale_hidden options now (after_cleanup options now (<[k := c]> T1))
    (<[k := c]> T2).
Proof.
  intros Hrel Hle k'.
  assert (<[k := c]> T1 !! k' = <[k := c]> T2 !! k' ∨
          (<[k := c]> T1 !! k' = None ∧
           ∃ b, <[k := c]> T2 !! k' = Some b ∧
                now - windowStart b >= windowMs options * 2)) as Hins.
  { destruct (decide (k = k')) as [->|Hne].
    - left. by rewrite !lookup_insert_eq.
    - rewrite !lookup_insert_ne by done.
      destruct (Hrel k') as [Heq | (Hnone & b & Hb & Hstale)]; [by left|].
      right. split; [done|]. exists b. split; [done | lia]. }
  unfold after_cleanup. case_bool_decide; [|done].
  rewrite sweep_lookup.
  destruct Hins as [Heq | (Hnone & b & Hb & Hstale)].
  - rewrite Heq. destruct (<[k := c]> T2 !! k') as [b|]; [|by left].
    case_bool_decide; [|by left].
    right. split; [done|]. by exists b.
  - rewrite Hnone. right. split; [done|]. by exists b.
Qed.

Lemma feed_cleanup_transparent (entries : list (LogEntry TMeta)) :
  0 <= windowMs options →
  StronglySorted Z.le (timestamp <$> entries) →
  ∀ t0 T1 T2 clock1 clock2,
    Forall (Z.le t0) (timestamp <$> entries) →
    stale_hidden options t0 T1 T2 →
    ∃ calls final1 final2 t,
      feed (samplingMiddleware options) clock1 entries T1
      = Some (calls, final1) ∧
      feed (rate_limit options) clock2 entries T2 = Some (calls, final2) ∧
      stale_hidden options t final1 final2.
Proof.
  intros Hw. induction entries as [|e es IH];
    intros Hsorted t0 T1 T2 clock1 clock2 Hfrom Hrel.
  - by exists [], T1, T2, t0.
  - rewrite fmap_cons in Hsorted, Hfrom.
    apply StronglySorted_inv in Hsorted as [Hsorted Hhead].
    apply Forall_cons in Hfrom as [Hle _].
    simpl feed. rewrite samplingMiddleware_run, rate_limit_run.
    rewrite (counted_bucket_hidden t0 (timestamp e) T1 T2) by done.
    set (c := counted_bucket _ _ _).
    destruct (IH Hsorted (timestamp e)
                (after_cleanup options (timestamp e)
                   (<[keyFn options e := c]> T1))
                (<[keyFn options e := c]> T2)
                (λ i, clock1 (S i)) (λ i, clock2 (S i)) Hhead)
      as (calls & final1 & final2 & t1 & -> & -> & Hfinal).
    { by eapply stale_hidden_step. }
    eexists _, final1, final2, t1.
    split; [done|]. split; [done | exact Hfinal].
Qed.

Lemma stale_hidden_refl t T : stale_hidden options t T T.
Proof. intros k. by left. Qed.

Lemma feed_cleanup_transparent_same clock1 clock2
    (entries : list (LogEntry TMeta)) buckets :
  0 <= windowMs options →
  StronglySorted Z.le (timestamp <$> entries) →
  ∃ calls final1 final2 t,
    feed (samplingMiddleware options) clock1 entries buckets
    = Some (calls, final1) ∧
    feed (rate_limit options) clock2 entries buckets = Some (calls, final2) ∧
    stale_hidden options t final1 final2.
Proof.
  intros Hw Hsorted.
  destruct entries as [|e es].
  - exists [], buckets, buckets, 0.
    split; [done|]. split; [done | apply stale_hidden_refl].
  - apply (feed_cleanup_transparent (e :: es) Hw Hsorted (timestamp e)).
    + rewrite fmap_cons in *. apply StronglySorted_inv in Hsorted as [_ Hhead].
      apply Forall_cons. split; [lia | done].
    + apply stale_hidden_refl.
Qed.

(** X1.  The clean-up is invisible in the decisions.  For entries in the
    order of their timestamps and [windowMs >= 0], the closure forwards, at
    each invocation, what it would forward without lines 70-77; the table it
    ends with is part of the table it would end with. *)
Theorem cleanup_never_changes_decisions clock1 clock2
    (entries : list (LogEntry TMeta)) buckets :
  0 <= windowMs options →
  StronglySorted Z.le (timestamp <$> entries) →
  ∃ calls final1 final2,
    feed (samplingMiddleware options) clock1 entries buckets
    = Some (calls, final1) ∧
    feed (rate_limit options) clock2 entries buckets = Some (calls, final2) ∧
    final1 ⊆ final2.
Proof.
  intros Hw Hsorted.
  destruct (feed_cleanup_transparent_same clock1 clock2 entries buckets Hw
              Hsorted) as (calls & final1 & final2 & t & H1 & H2 & Hrel).
  exists calls, final1, final2. split; [done|]. split; [done|].
  apply map_subseteq_spec. intros k b Hk.
  destruct (Hrel k) as [<- | [Hnone _]]; [done | congruence].
Qed.

Lemma rate_limit_feed_key k (entries : list (LogEntry TMeta)) :
  ∀ T1 T2 clock1 clock2,
    T1 !! k = T2 !! k →
    ∃ calls1 calls2 final1 final2,
      feed (rate_limit options) clock1 entries T1 = Some (calls1, final1) ∧
      feed (rate_limit options) clock2
        (filter (λ e, keyFn options e = k) entries) T2
      = Some (calls2, final2) ∧
      filter (λ e, keyFn options e = k) (concat calls1) = concat calls2.
Proof.
  induction entries as [|e es IH]; intros T1 T2 clock1 clock2 Hk.
  - by exists [], [], T1, T2.
  - simpl feed. rewrite rate_limit_run.
    destruct (decide (keyFn options e = k)) as [He|He].
    + rewrite filter_cons_True by done. simpl feed. rewrite rate_limit_run.
      rewrite He, Hk.
      set (c := counted_bucket _ _ _).
      destruct (IH (<[k := c]> T1) (<[k := c]> T2)
                  (λ i, clock1 (S i)) (λ i, clock2 (S i)))
        as (calls1 & calls2 & final1 & final2 & -> & -> & Hcalls).
      { by rewrite !lookup_insert_eq. }
      eexists _, _, final1, final2. split; [done|]. split; [done|].
      simpl concat. rewrite filter_app, Hcalls. f_equal.
      case_bool_decide; [|done]. by rewrite filter_cons_True.
    + rewrite filter_cons_False by done.
      set (c := counted_bucket _ _ _).
      destruct (IH (<[keyFn options e := c]> T1) T2
                  (λ i, clock1 (S i)) clock2)
        as (calls1 & calls2 & final1 & final2 & -> & -> & Hcalls).
      { by rewrite lookup_insert_ne. }
      eexists _, _, final1, final2. split; [done|]. split; [done|].
      simpl concat. rewrite filter_app, Hcalls.
      case_bool_decide; [|done]. by rewrite filter_cons_False.
Qed.

Lemma StronglySorted_fmap_filter {A} (f : A → Z) (P : A → Prop)
    `{!∀ x, Decision (P x)} (l : list A) :
  StronglySorted Z.le (f <$> l) → StronglySorted Z.le (f <$> filter P l).
Proof.
  induction l as [|x l IH]; [done|].
  rewrite fmap_cons. intros [Hs Hh]%StronglySorted_inv.
  destruct (decide (P x)).
  - rewrite filter_cons_True by done. rewrite fmap_cons.
    constructor; [by apply IH|].
    rewrite Forall_forall in Hh. apply Forall_forall.
    intros z (y & -> & [_ Hy]%list_elem_of_filter)%list_elem_of_fmap.
    apply Hh. apply list_elem_of_fmap. by exists y.
  - rewrite filter_cons_False by done. by apply IH.
Qed.

(** X2.  Keys do not interfere.  For entries in the order of their
    timestamps and [windowMs >= 0], the entries of key [k] that are
    forwarded in a run are those forwarded when the entries of key [k] are
    given alone, from the same table. *)
Theorem keys_do_not_interfere clock1 clock2 k
    (entries : list (LogEntry TMeta)) buckets :
  0 <= windowMs options →
  StronglySorted Z.le (timestamp <$> entries) →
  ∃ calls calls_k final final_k,
    feed (samplingMiddleware options) clock1 entries buckets
    = Some (calls, final) ∧
    feed (samplingMiddleware options) clock2
      (filter (λ e, keyFn options e = k) entries) buckets
    = Some (calls_k, final_k) ∧
    filter (λ e, keyFn options e = k) (concat calls) = concat calls_k.
Proof.
  intros Hw Hsorted.
  destruct (feed_cleanup_transparent_same clock1 clock1 entries buckets Hw
              Hsorted) as (calls & final & f2 & t & H1 & H2 & _).
  destruct (feed_cleanup_transparent_same clock2 clock2
              (filter (λ e, keyFn options e = k) entries) buckets Hw
              (StronglySorted_fmap_filter _ _ _ Hsorted))
    as (calls_k & final_k & f2' & t' & H1' & H2' & _).
  destruct (rate_limit_feed_key k entries buckets buckets clock1 clock2
              eq_refl)
    as (c1 & c2 & g1 & g2 & G1 & G2 & Hcalls).
  rewrite H2 in G1. rewrite H2' in G2. simplify_eq.
  by exists c1, c2, final, final_k.
Qed.
End SamplingCleanup.

Section SamplingQuota.
Context {TMeta : Type}.
Variable options : SamplingOptions.t TMeta.

Lemma after_cleanup_lookup now (buckets : gmap string BucketEntry) k :
  after_cleanup options now buckets !! k = buckets !! k ∨
  (after_cleanup options now buckets !! k = None ∧
   Z.of_nat (size buckets) > 10000 ∧
   ∃ b, buckets !! k = Some b ∧ now - windowStart b >= windowMs options * 2).
Proof.
  unfold after_cleanup. case_bool_decide; [|by left].
  rewrite sweep_lookup. destruct (buckets !! k) as [b|]; [|by left].
  case_bool_decide; [|by left].
  right. split; [done|]. split; [done|]. by exists b.
Qed.

(** X3.  An invocation that returns has left the bucket of every other key
    as it was, or has deleted it, and then it was at least two windows old;
    it has created no bucket but the one of the entry's key, so the table
    has grown by one bucket at most. *)
Theorem other_keys_kept_or_expired (entry : LogEntry TMeta) env buckets
    final calls :
  samplingMiddleware options entry env buckets = Some (tt, final, calls) →
  (∀ k, k ≠ keyFn options entry →
     final !! k = buckets !! k ∨
     (final !! k = None ∧
      ∃ b, buckets !! k = Some b ∧
           timestamp entry - windowStart b >= windowMs options * 2)) ∧
  dom final ⊆ {[keyFn options entry]} ∪ dom buckets ∧
  (size final <= S (size buckets))%nat.
Proof.
  rewrite samplingMiddleware_run.
  set (c := counted_bucket _ _ _). set (key := keyFn options entry).
  intros [= <- _].
  assert (after_cleanup options (timestamp entry) (<[key := c]> buckets)
          ⊆ <[key := c]> buckets) as Hincl.
  { apply map_subseteq_spec. intros k b Hk.
    destruct (after_cleanup_lookup (timestamp entry) (<[key := c]> buckets) k)
      as [Heq | [Hnone _]]; [by rewrite <- Heq | congruence]. }
  split; [|split].
  - intros k Hk.
    destruct (after_cleanup_lookup (timestamp entry) (<[key := c]> buckets) k)
      as [Heq | (Hnone & _ & b & Hb & Hstale)].
    + left. by rewrite Heq, lookup_insert_ne.
    + right. split; [done|]. exists b. by rewrite lookup_insert_ne in Hb.
  - apply subseteq_dom in Hincl. by rewrite dom_insert_L in Hincl.
  - apply map_subseteq_size in Hincl.
    pose proof (map_size_insert key c buckets) as Hsize.
    destruct (buckets !! key); simpl in Hsize; lia.
Qed.

Lemma counts_positive_step (entry : LogEntry TMeta) buckets :
  counts_positive buckets →
  counts_positive
    (after_cleanup options (timestamp entry)
       (<[keyFn options entry :=
            counted_bucket (windowMs options) (timestamp entry)
              (buckets !! keyFn options entry)]> buckets)).
Proof.
  intros Hpos k b Hk.
  destruct (after_cleanup_lookup (timestamp entry)
              (<[keyFn options entry :=
                   counted_bucket (windowMs options) (timestamp entry)
                     (buckets !! keyFn options entry)]> buckets) k)
    as [Heq | [Hnone _]]; [|congruence].
  rewrite Heq in Hk.
  destruct (decide (keyFn options entry = k)) as [<-|Hne].
  - rewrite lookup_insert_eq in Hk. injection Hk as <-.
    unfold counted_bucket, current_bucket.
    destruct (buckets !! keyFn options entry) as [b0|] eqn:Hb0; simpl; [|lia].
    case_bool_decide; simpl; [lia|]. specialize (Hpos _ _ Hb0). lia.
  - rewrite lookup_insert_ne in Hk by done. by eapply Hpos.
Qed.

(** X4.  In a table in which every bucket has a count of at least 1, every
    run returns and leaves such a table. *)
Theorem counts_stay_positive clock (entries : list (LogEntry TMeta)) buckets :
  counts_positive buckets →
  ∃ calls final,
    feed (samplingMiddleware options) clock entries buckets
    = Some (calls, final) ∧
    counts_positive final.
Proof.
  revert clock buckets.
  induction entries as [|e es IH]; intros clock buckets Hpos.
  - by exists [], buckets.
  - simpl feed. rewrite samplingMiddleware_run.
    destruct (IH (λ i, clock (S i)) _ (counts_positive_step e buckets Hpos))
      as (calls & final & -> & Hfinal).
    by eexists _, final.
Qed.

(** X5.  With [maxPerWindow < 1] nothing is forwarded: from a table with
    counts of at least 1 (the empty one of a new instance, say), every
    invocation of a run makes no call of [next]. *)
Theorem limit_below_one_drops_all clock (entries : list (LogEntry TMeta))
    buckets :
  maxPerWindow options < 1 →
  counts_positive buckets →
  ∃ final,
    feed (samplingMiddleware options) clock entries buckets
    = Some (replicate (length entries) [], final).
Proof.
  intros Hmax. revert clock buckets.
  induction entries as [|e es IH]; intros clock buckets Hpos.
  - by exists buckets.
  - simpl feed. rewrite samplingMiddleware_run.
    destruct (IH (λ i, clock (S i)) _ (counts_positive_step e buckets Hpos))
      as (final & ->).
    exists final. simpl. rewrite bool_decide_false; [done|].
    unfold counted_bucket, current_bucket.
    destruct (buckets !! keyFn options e) as [b0|] eqn:Hb0; simpl; [|lia].
    case_bool_decide; simpl; [lia|]. specialize (Hpos _ _ Hb0). lia.
Qed.

Lemma feed_in_window_state (entries : list (LogEntry TMeta)) key start :
  0 < windowMs options →
  (∀ e, e ∈ entries →
     keyFn options e = key ∧ timestamp e - start < windowMs options) →
  ∀ clock buckets c,
    buckets !! key = Some {| count := c; windowStart := start |} →
    ∃ final,
      feed (samplingMiddleware options) clock entries buckets =
        Some (imap (λ i e,
                      if bool_decide (c + Z.of_nat i + 1 <= maxPerWindow options)
                      then [e] else []) entries,
              final) ∧
      final !! key
      = Some {| count := c + Z.of_nat (length entries);
                windowStart := start |}.
Proof.
  intros Hw. induction entries as [|e es IH]; intros Hin clock buckets c Hb.
  - exists buckets. split; [done|]. rewrite Hb. simpl. do 2 f_equal. lia.
  - destruct (Hin e) as [Hkey Ht]; [left|].
    simpl feed. rewrite samplingMiddleware_run.
    assert (counted_bucket (windowMs options) (timestamp e)
              (buckets !! keyFn options e)
            = {| count := c + 1; windowStart := start |}) as Hc.
    { unfold counted_bucket, current_bucket. rewrite Hkey, Hb. simpl.
      case_bool_decide; [lia | done]. }
    rewrite Hc, Hkey. simpl count.
    edestruct (IH (λ e' He', Hin e' (list_elem_of_further _ _ _ He'))
                 (λ i, clock (S i))
                 (after_cleanup options (timestamp e)
                    (<[key := {| count := c + 1; windowStart := start |}]>
                       buckets))
                 (c + 1)) as (final & Hfinal & Hlookup).
    { apply after_cleanup_lookup_live; [apply lookup_insert_eq | simpl; lia]. }
    rewrite Hfinal. exists final. split.
    + f_equal. f_equal. rewrite imap_cons. f_equal.
      * replace (c + Z.of_nat 0 + 1) with (c + 1) by lia. done.
      * apply imap_ext. intros i x _. simpl.
        replace (c + 1 + Z.of_nat i + 1)
          with (c + Z.of_nat (S i) + 1) by lia.
        done.
    + rewrite Hlookup. do 2 f_equal. simpl length. lia.
Qed.

(** X6.  What is left of a window.  When the bucket of a key holds count
    [c >= 0], entries of that key that arrive before the window ends are
    forwarded until the count reaches [maxPerWindow]: the first
    [maxPerWindow - c] of them, none when [c >= maxPerWindow]; dropped
    entries are counted too, the count ends at [c + n]. *)
Theorem remaining_quota clock key start c (entries : list (LogEntry TMeta))
    buckets :
  0 <= c →
  buckets !! key = Some {| count := c; windowStart := start |} →
  0 < windowMs options →
  (∀ e, e ∈ entries →
     keyFn options e = key ∧ timestamp e - start < windowMs options) →
  ∃ calls final,
    feed (samplingMiddleware options) clock entries buckets
    = Some (calls, final) ∧
    concat calls = take (Z.to_nat (maxPerWindow options - c)) entries ∧
    final !! key
    = Some {| count := c + Z.of_nat (length entries); windowStart := start |}.
Proof.
  intros Hc Hb Hw Hin.
  destruct (feed_in_window_state entries key start Hw Hin clock buckets c Hb)
    as (final & Hfeed & Hfinal).
  eexists _, final. split; [exact Hfeed|]. split; [|exact Hfinal].
  by apply concat_admitted_prefix.
Qed.
End SamplingQuota.

(** ** The OCPP stage: what enrichment does *)

Section OcppEnrichment.
Variable JSON_stringify_length : OcppExchangeMeta.t → option Z.
Variable options : OcppMiddlewareOptions.t.

Lemma enriched_payloadSize_fixed m :
  enriched_payloadSize JSON_stringify_length options
    (set_payloadSize (enriched_payloadSize JSON_stringify_length options m) m)
  = enriched_payloadSize JSON_stringify_length options m.
Proof.
  unfold enriched_payloadSize at 2 3.
  destruct (autoPayloadSize options
            && bool_decide (OcppExchangeMeta.payloadSize m = None)
            && truthy (OcppExchangeMeta.action m)) eqn:Hcond.
  - destruct (JSON_stringify_length m) as [n|] eqn:Hjson.
    + unfold enriched_payloadSize. simpl.
      by rewrite andb_false_r.
    + rewrite set_payloadSize_same. unfold enriched_payloadSize.
      by rewrite Hcond, Hjson.
  - rewrite set_payloadSize_same. unfold enriched_payloadSize.
    by rewrite Hcond.
Qed.

Lemma enriched_correlationId_fixed (l : loc) e m p :
  enriched_correlationId options
    (set_correlationId (enriched_correlationId options e m) (set_meta l e))
    (set_payloadSize p m)
  = enriched_correlationId options e m.
Proof.
  unfold enriched_correlationId. simpl.
  destruct (propagateCorrelationId options); simpl; [|done].
  destruct (truthy (OcppExchangeMeta.correlationId m)) eqn:Hm; simpl; [|done].
  destruct (truthy (correlationId e)) eqn:He; simpl.
  - by rewrite He.
  - by rewrite Hm.
Qed.

(** X7.  Enriching twice adds nothing.  Given the entry it forwarded, the
    stage forwards a copy with the same fields and a meta object with the
    same fields. *)
Theorem ocpp_enrichment_idempotent entry env1 env2 (h : Heap) e m :
  h !! entry = Some (OEntry e) →
  h !! meta e = Some (OMeta m) →
  ∃ h1 first e1 m1 h2 second e2,
    ocppMiddleware JSON_stringify_length options entry env1 h
    = Some (tt, h1, [first]) ∧
    h1 !! first = Some (OEntry e1) ∧
    h1 !! meta e1 = Some (OMeta m1) ∧
    ocppMiddleware JSON_stringify_length options first env2 h1
    = Some (tt, h2, [second]) ∧
    h2 !! second = Some (OEntry e2) ∧
    h2 !! meta e2 = Some (OMeta m1) ∧
    e2 = set_meta (meta e2) e1.
Proof.
  intros Hentry Hmeta.
  destruct (ocppMiddleware_run JSON_stringify_length options entry env1 h e m
              Hentry Hmeta) as (h1 & Hrun1 & Hfirst & Hcopy1 & _).
  set (first := fresh (dom h)) in *.
  set (copy1 := fresh (dom (<[first := OEntry e]> h))) in *.
  set (e1 := set_correlationId (enriched_correlationId options e m)
               (set_meta copy1 e)) in *.
  set (m1 := set_payloadSize
               (enriched_payloadSize JSON_stringify_length options m) m) in *.
  destruct (ocppMiddleware_run JSON_stringify_length options first env2 h1 e1
              m1 Hfirst Hcopy1) as (h2 & Hrun2 & Hsecond & Hcopy2 & _).
  set (second := fresh (dom h1)) in *.
  set (copy2 := fresh (dom (<[second := OEntry e1]> h1))) in *.
  exists h1, first, e1, m1, h2, second,
    (set_correlationId (enriched_correlationId options e1 m1)
       (set_meta copy2 e1)).
  split; [exact Hrun1|]. split; [exact Hfirst|]. split; [exact Hcopy1|].
  split; [exact Hrun2|]. split; [exact Hsecond|].
  split.
  - simpl meta. rewrite Hcopy2. do 2 f_equal.
    subst m1. rewrite enriched_payloadSize_fixed.
    by destruct m.
  - subst e1 m1. rewrite enriched_correlationId_fixed.
    by destruct e.
Qed.


(** X9.  With [autoPayloadSize] on, no [payloadSize], a non-empty [action]
    and a meta that can be serialized, the copied meta carries the length of
    the serialization of the meta as it was, without [payloadSize]. *)
Theorem ocpp_payloadSize_is_serialized_length entry env (h : Heap) e m a n :
  autoPayloadSize options = true →
  h !! entry = Some (OEntry e) →
  h !! meta e = Some (OMeta m) →
  OcppExchangeMeta.payloadSize m = None →
  OcppExchangeMeta.action m = Some a → a ≠ EmptyString →
  JSON_stringify_length m = Some n →
  ∃ h' enriched e',
    ocppMiddleware JSON_stringify_length options entry env h
    = Some (tt, h', [enriched]) ∧
    h' !! enriched = Some (OEntry e') ∧
    h' !! meta e' = Some (OMeta (set_payloadSize (Some n) m)).
Proof.
  intros Hauto Hentry Hmeta Hnone Haction Ha Hjson.
  destruct (ocppMiddleware_run JSON_stringify_length options entry env h e m
              Hentry Hmeta) as (h' & Hrun & Henriched & Hcopy & _).
  eexists h', _, _. split; [exact Hrun|]. split; [exact Henriched|].
  simpl meta. rewrite Hcopy. do 2 f_equal.
  unfold enriched_payloadSize.
  rewrite Hauto, Hnone, Haction, Hjson. simpl.
  destruct a; [done|]. done.
Qed.
End OcppEnrichment.

(** X10.  With [autoPayloadSize: false] the copied meta equals the
    original; with [propagateCorrelationId: false] the copied entry differs
    from the original in its [meta] reference only. *)
Theorem ocpp_switched_off_copies JSON_stringify_length options entry env
    (h : Heap) e m :
  h !! entry = Some (OEntry e) →
  h !! meta e = Some (OMeta m) →
  ∃ h' enriched e' m',
    ocppMiddleware JSON_stringify_length options entry env h
    = Some (tt, h', [enriched]) ∧
    h' !! enriched = Some (OEntry e') ∧
    h' !! meta e' = Some (OMeta m') ∧
    (OcppMiddlewareOptions.autoPayloadSize options = Some false → m' = m) ∧
    (OcppMiddlewareOptions.propagateCorrelationId options = Some false →
     e' = set_meta (meta e') e).
Proof.
  intros Hentry Hmeta.
  destruct (ocppMiddleware_run JSON_stringify_length options entry env h e m
              Hentry Hmeta) as (h' & Hrun & Henriched & Hcopy & _).
  eexists h', _, _, _. split; [exact Hrun|]. split; [exact Henriched|].
  split; [exact Hcopy|]. split.
  - intros Hoff. unfold enriched_payloadSize, autoPayloadSize.
    rewrite Hoff. simpl. apply set_payloadSize_same.
  - intros Hoff. unfold enriched_correlationId, propagateCorrelationId.
    rewrite Hoff. simpl. by destruct e.
Qed.

Section OcppAction.
Variable JSON_stringify_length : OcppExchangeMeta.t → option Z.
Variable options : OcppMiddlewareOptions.t.

(** X11.  Without an [action], or with the empty string as [action], no
    payload size is computed: the copied meta equals the original. *)
Theorem ocpp_without_action_keeps_meta entry env (h : Heap) e m :
  h !! entry = Some (OEntry e) →
  h !! meta e = Some (OMeta m) →
  OcppExchangeMeta.action m = None ∨
  OcppExchangeMeta.action m = Some EmptyString →
  ∃ h' enriched e',
    ocppMiddleware JSON_stringify_length options entry env h
    = Some (tt, h', [enriched]) ∧
    h' !! enriched = Some (OEntry e') ∧
    h' !! meta e' = Some (OMeta m).
Proof.
  intros Hentry Hmeta Haction.
  destruct (ocppMiddleware_run JSON_stringify_length options entry env h e m
              Hentry Hmeta) as (h' & Hrun & Henriched & Hcopy & _).
  eexists h', _, _. split; [exact Hrun|]. split; [exact Henriched|].
  simpl meta. rewrite Hcopy. do 2 f_equal.
  unfold enriched_payloadSize.
  destruct Haction as [-> | ->]; simpl; rewrite andb_false_r;
    apply set_payloadSize_same.
Qed.
End OcppAction.

(** ** The level maps *)

(** X12.  [LogLevelNameMap] has seven keys, the lower-case level names,
    and gives each the value [LogLevel] gives the name; the upper-case names
    are not keys. *)
Theorem name_map_lookup (name : LogLevelName) :
  LogLevelNameMap !! toLowerCase (LogLevelName_key name)
  = Some (LogLevel name) ∧
  LogLevelNameMap !! LogLevelName_key name = None ∧
  size LogLevelNameMap = 7%nat.
Proof. destruct name; repeat split; vm_compute; reflexivity. Qed.

Section ValueMapFacts.
Variable ToString : Number.number → string.

Lemma Object_fromEntries_snoc {V} (entries : list (string * V)) k v :
  Object_fromEntries (entries ++ [(k, v)])
  = <[k := v]> (Object_fromEntries entries).
Proof. unfold Object_fromEntries. by rewrite foldl_app. Qed.

(** X13.  [LogLevelValueMap] inverts [LogLevel] on the six finite levels
    and has no entry for the value of [SILENT], provided the levels have
    distinct property names. *)
Theorem value_map_inverts_levels :
  (∀ a b, ToString (LogLevel a) = ToString (LogLevel b) → a = b) →
  ∀ name,
    LogLevelValueMap ToString !! ToString (LogLevel name)
    = match name with SILENT => None | _ => Some name end.
Proof.
  intros Hinj name.
  assert (∀ a b, a ≠ b → ToString (LogLevel a) ≠ ToString (LogLevel b))
    as Hne by (intros a b Hab Heq; by apply Hab, Hinj).
  assert (LogLevelValueMap ToString
          = <[ToString (LogLevel FATAL) := FATAL]>
              (<[ToString (LogLevel ERROR) := ERROR]>
              (<[ToString (LogLevel WARN) := WARN]>
              (<[ToString (LogLevel INFO) := INFO]>
              (<[ToString (LogLevel DEBUG) := DEBUG]>
              (<[ToString (LogLevel TRACE) := TRACE]> ∅)))))) as ->
    by reflexivity.
  destruct name;
    repeat (first [ rewrite lookup_insert_eq
                  | rewrite lookup_insert_ne by (by apply Hne)
                  | rewrite lookup_empty ]);
    done.
Qed.
End ValueMapFacts.

Lemma value_map_inverts_levels_witness :
  LogLevelValueMap integer_ToString !! "40" = Some WARN ∧
  LogLevelValueMap integer_ToString !! "Infinity" = None.
Proof.
  assert (∀ a b, integer_ToString (LogLevel a) = integer_ToString (LogLevel b)
                 → a = b) as Hinj.
  { intros a b. destruct a, b; vm_compute; congruence. }
  split.
  - apply (value_map_inverts_levels integer_ToString Hinj WARN).
  - apply (value_map_inverts_levels integer_ToString Hinj SILENT).
Defined.

(** ** The JSON stream transport *)

Lemma mapM_fmap_option {A B C} (f : A → option B) (g : B → C) (l : list A) :
  mapM (λ x, g <$> f x) l = fmap g <$> mapM f l.
Proof.
  induction l as [|x l IH]; [done|].
  cbn. destruct (f x) as [y|]; [|done]. cbn. rewrite IH.
  by destruct (mapM f l).
Qed.

Section JsonStreamFacts.
Context {TMeta : Type}.
Variable JSON_stringify : LogEntry TMeta → option string.
Variable options : JsonStreamTransportOptions.t TMeta.

(** Each [transform] appends one chunk and touches nothing else. *)
Lemma transform_each_written (entries : list (LogEntry TMeta)) chunks stream :
  mapM (serialize JSON_stringify options) entries = Some chunks →
  ∃ stream',
    transform_each (jsonStreamTransport JSON_stringify options) entries stream
    = Some stream' ∧
    written stream' = written stream ++ chunks ∧
    end_calls stream' = end_calls stream ∧
    has_end stream' = has_end stream.
Proof.
  revert chunks stream.
  induction entries as [|e es IH]; intros chunks stream Hser.
  - injection Hser as <-. exists stream. by rewrite app_nil_r.
  - cbn in Hser.
    destruct (serialize JSON_stringify options e) as [chunk|] eqn:He;
      [|done].
    cbn in Hser.
    destruct (mapM (serialize JSON_stringify options) es) as [rest|] eqn:Hes;
      [|done].
    injection Hser as <-.
    destruct (IH rest (stream_write chunk stream) eq_refl)
      as (stream' & Hrun & Hwritten & Hends & Hhas).
    exists stream'. simpl transform_each. rewrite He. simpl.
    split; [exact Hrun|]. split; [|by split].
    rewrite Hwritten. simpl. by rewrite <- app_assoc.
Qed.

(** X14.  When every entry can be serialized, [transform] called on the
    entries in turn writes one chunk per entry, the serializations in order,
    after what the stream held, and never ends the stream; [close] writes
    nothing and calls [end] once, if the stream has [end]. *)
Theorem json_stream_writes_in_order (entries : list (LogEntry TMeta))
    chunks stream :
  mapM (serialize JSON_stringify options) entries = Some chunks →
  ∃ stream',
    transform_each (jsonStreamTransport JSON_stringify options) entries stream
    = Some stream' ∧
    written stream' = written stream ++ chunks ∧
    end_calls stream' = end_calls stream ∧
    written (Transformer.close (jsonStreamTransport JSON_stringify options)
               stream') = written stream' ∧
    end_calls (Transformer.close (jsonStreamTransport JSON_stringify options)
                 stream')
    = (end_calls stream + if has_end stream then 1 else 0)%nat.
Proof.
  intros Hser.
  destruct (transform_each_written entries chunks stream Hser)
    as (stream' & Hrun & Hwritten & Hends & Hhas).
  exists stream'. split; [exact Hrun|]. split; [exact Hwritten|].
  split; [exact Hends|]. simpl. rewrite Hhas.
  destruct (has_end stream); simpl; split; done || lia.
Qed.

End JsonStreamFacts.

Section JsonStreamDefault.
Context {TMeta : Type}.
Variable JSON_stringify : LogEntry TMeta → option string.
Variable options : JsonStreamTransportOptions.t TMeta.

(** X15.  Without a custom serializer the chunks are the [JSON.stringify]
    texts of the entries, each followed by one newline. *)
Theorem json_stream_default_writes_lines (entries : list (LogEntry TMeta))
    jsons stream :
  JsonStreamTransportOptions.serializer options = None →
  mapM JSON_stringify entries = Some jsons →
  ∃ stream',
    transform_each (jsonStreamTransport JSON_stringify options) entries stream
    = Some stream' ∧
    written stream'
    = written stream ++ ((λ json, json +:+ newline) <$> jsons).
Proof.
  intros Hdefault Hjsons.
  destruct (transform_each_written JSON_stringify options entries
              ((λ json, json +:+ newline) <$> jsons) stream)
    as (stream' & Hrun & Hwritten & _).
  { unfold serialize. rewrite Hdefault. simpl.
    by rewrite mapM_fmap_option, Hjsons. }
  by exists stream'.
Qed.
End JsonStreamDefault.

(** ** The further properties at concrete inputs *)

Lemma mixed_sorted : StronglySorted Z.le (timestamp <$> mixed).
Proof. unfold mixed. simpl. repeat constructor; by vm_compute. Qed.

Lemma cleanup_never_changes_decisions_witness :
  ∃ calls final1 final2,
    feed (samplingMiddleware burst_options) (λ _, 0) mixed ∅
    = Some (calls, final1) ∧
    feed (rate_limit burst_options) (λ _, 0) mixed ∅ = Some (calls, final2) ∧
    final1 ⊆ final2.
Proof.
  apply (cleanup_never_changes_decisions burst_options).
  - by vm_compute.
  - apply mixed_sorted.
Defined.

Lemma keys_do_not_interfere_witness :
  ∃ calls calls_k final final_k,
    feed (samplingMiddleware burst_options) (λ _, 0) mixed ∅
    = Some (calls, final) ∧
    feed (samplingMiddleware burst_options) (λ _, 0)
      (filter (λ e, keyFn burst_options e = "tick") mixed) ∅
    = Some (calls_k, final_k) ∧
    filter (λ e, keyFn burst_options e = "tick") (concat calls)
    = concat calls_k.
Proof.
  apply (keys_do_not_interfere burst_options).
  - by vm_compute.
  - apply mixed_sorted.
Defined.

Lemma map_size_insert_ge (k : string) (b : BucketEntry)
    (buckets : gmap string BucketEntry) :
  (size buckets <= size (<[k := b]> buckets))%nat.
Proof.
  rewrite map_size_insert. destruct (buckets !! k); simpl; lia.
Qed.

(** The probe on the crowded table with the young bucket: the sweep runs,
    the young bucket stays, the bucket of key "1" goes. *)
Lemma other_keys_kept_or_expired_witness :
  ∃ final calls,
    samplingMiddleware probe_options probe {| date_now := 0 |} crowded_young
    = Some (tt, final, calls) ∧
    final !! "young" = crowded_young !! "young" ∧
    crowded_young !! "young" = Some {| count := 1; windowStart := 1500 |} ∧
    crowded_young !! "1" = Some {| count := 1; windowStart := 0 |} ∧
    final !! "1" = None.
Proof.
  pose proof (samplingMiddleware_run probe_options probe {| date_now := 0 |}
                crowded_young) as Hrun.
  cbv zeta in Hrun.
  pose proof (other_keys_kept_or_expired probe_options probe
                {| date_now := 0 |} crowded_young) as Hthm.
  eapply Hthm in Hrun as Hprops. destruct Hprops as (Hframe & _ & _).
  assert (crowded_young !! "young"
          = Some {| count := 1; windowStart := 1500 |}) as Hyoung
    by apply lookup_insert_eq.
  assert (crowded_young !! "1" = Some {| count := 1; windowStart := 0 |})
    as Hone.
  { unfold crowded_young. rewrite lookup_insert_ne by done.
    apply (crowded_lookup 1). lia. }
  match type of Hrun with _ = Some (_, ?f, ?c) => exists f, c end.
  split; [exact Hrun|]. split.
  { destruct (Hframe "young"%string) as [Heq | (_ & b & Hb & Hstale)];
      [done | exact Heq |].
    rewrite Hyoung in Hb. injection Hb as <-.
    exfalso. apply Hstale. reflexivity. }
  split; [exact Hyoung|]. split; [exact Hone|].
  rewrite after_cleanup_sweeps.
  - rewrite sweep_lookup, lookup_insert_ne by done. rewrite Hone. reflexivity.
  - pose proof (map_size_insert_ge (keyFn probe_options probe)
                  (counted_bucket (windowMs probe_options) (timestamp probe)
                     (crowded_young !! keyFn probe_options probe))
                  crowded_young) as Hmid.
    pose proof (map_size_insert_ge "young"
                  {| count := 1; windowStart := 1500 |} crowded) as Hy.
    fold crowded_young in Hy. rewrite crowded_size in Hy. lia.
Defined.

(** One message 101 times: the first 100 go through. *)
Lemma sampling_defaults_witness :
  ∃ calls final,
    feed (samplingMiddleware SamplingOptions.empty) (λ _, 0) flood ∅
    = Some (calls, final) ∧
    concat calls = replicate 100 (tick "x" 0).
Proof.
  destruct (sampling_defaults (TMeta := unit)) as (_ & _ & _ & _ & _ & Hrun).
  destruct (Hrun (λ _, 0) flood) as (calls & final & Hfeed & _ & Hcat).
  - intros first e Hhead He. unfold flood in Hhead, He.
    injection Hhead as <-. apply elem_of_replicate in He as [-> _].
    split; [reflexivity | by vm_compute].
  - exists calls, final. split; [exact Hfeed | exact Hcat].
Defined.

Lemma counts_positive_empty : counts_positive ∅.
Proof. intros k b Hk. by rewrite lookup_empty in Hk. Qed.

Lemma counts_stay_positive_witness :
  counts_positive ∅ ∧
  ∃ calls final,
    feed (samplingMiddleware burst_options) (λ _, 0) burst ∅
    = Some (calls, final) ∧
    counts_positive final.
Proof.
  split; [apply counts_positive_empty|].
  apply (counts_stay_positive burst_options), counts_positive_empty.
Defined.

Lemma limit_below_one_drops_all_witness :
  ∃ final,
    feed (samplingMiddleware mute_options) (λ _, 0) burst ∅
    = Some ([[]; []; []], final).
Proof.
  apply (limit_below_one_drops_all mute_options (λ _, 0) burst ∅).
  - by vm_compute.
  - apply counts_positive_empty.
Defined.

Lemma remaining_quota_witness :
  ∃ calls final,
    feed (samplingMiddleware burst_options) (λ _, 0) burst half_used
    = Some (calls, final) ∧
    concat calls = [tick "a" 0] ∧
    final !! "tick" = Some {| count := 4; windowStart := 0 |}.
Proof.
  apply (remaining_quota burst_options (λ _, 0) "tick" 0 1 burst half_used).
  - lia.
  - reflexivity.
  - by vm_compute.
  - intros e He.
    repeat (apply elem_of_cons in He as [->|He]);
      [| | |by apply elem_of_nil in He];
      (split; [reflexivity | by vm_compute]).
Defined.

Lemma ocpp_enrichment_idempotent_witness :
  ∃ h1 first e1 m1 h2 second e2,
    ocppMiddleware (λ _, Some 2) OcppMiddlewareOptions.empty 1%positive
      {| date_now := 0 |} boot_heap
    = Some (tt, h1, [first]) ∧
    h1 !! first = Some (OEntry e1) ∧
    h1 !! meta e1 = Some (OMeta m1) ∧
    ocppMiddleware (λ _, Some 2) OcppMiddlewareOptions.empty first
      {| date_now := 1 |} h1
    = Some (tt, h2, [second]) ∧
    h2 !! second = Some (OEntry e2) ∧
    h2 !! meta e2 = Some (OMeta m1) ∧
    e2 = set_meta (meta e2) e1.
Proof.
  apply (ocpp_enrichment_idempotent (λ _, Some 2) OcppMiddlewareOptions.empty
           1%positive _ _ boot_heap boot_entry boot_meta); reflexivity.
Defined.


Lemma ocpp_payloadSize_is_serialized_length_witness :
  ∃ h' enriched e',
    ocppMiddleware (λ _, Some 87) OcppMiddlewareOptions.empty 1%positive
      {| date_now := 0 |} boot_heap
    = Some (tt, h', [enriched]) ∧
    h' !! enriched = Some (OEntry e') ∧
    h' !! meta e' = Some (OMeta (set_payloadSize (Some 87) boot_meta)).
Proof.
  apply (ocpp_payloadSize_is_serialized_length (λ _, Some 87)
           OcppMiddlewareOptions.empty 1%positive _ boot_heap boot_entry
           boot_meta "BootNotification" 87); reflexivity || discriminate.
Defined.

Lemma ocpp_switched_off_copies_witness :
  ∃ h' enriched e' m',
    ocppMiddleware (λ _, Some 87)
      (OcppMiddlewareOptions.mk (Some false) (Some false)) 1%positive
      {| date_now := 0 |} sample_heap
    = Some (tt, h', [enriched]) ∧
    h' !! enriched = Some (OEntry e') ∧
    h' !! meta e' = Some (OMeta m') ∧
    m' = sample_meta ∧
    e' = set_meta (meta e') sample_entry.
Proof.
  destruct (ocpp_switched_off_copies (λ _, Some 87)
              (OcppMiddlewareOptions.mk (Some false) (Some false)) 1%positive
              {| date_now := 0 |} sample_heap sample_entry sample_meta
              eq_refl eq_refl)
    as (h' & enriched & e' & m' & Hrun & He & Hm & Hpay & Hcorr).
  exists h', enriched, e', m'.
  split; [exact Hrun|]. split; [exact He|]. split; [exact Hm|].
  split; [by apply Hpay | by apply Hcorr].
Defined.

Lemma ocpp_without_action_keeps_meta_witness :
  ∃ h' enriched e',
    ocppMiddleware (λ _, Some 87) OcppMiddlewareOptions.empty 1%positive
      {| date_now := 0 |} sample_heap
    = Some (tt, h', [enriched]) ∧
    h' !! enriched = Some (OEntry e') ∧
    h' !! meta e' = Some (OMeta sample_meta).
Proof.
  apply (ocpp_without_action_keeps_meta (λ _, Some 87)
           OcppMiddlewareOptions.empty 1%positive _ sample_heap sample_entry
           sample_meta); [reflexivity | reflexivity | by left].
Defined.

Lemma json_stream_writes_in_order_witness :
  ∃ stream',
    transform_each (jsonStreamTransport message_json plain_options) burst
      recorder
    = Some stream' ∧
    written stream' = [ "tick" +:+ newline; "tick" +:+ newline;
                        "tick" +:+ newline ] ∧
    end_calls stream' = 0%nat ∧
    written (Transformer.close (jsonStreamTransport message_json plain_options)
               stream') = written stream' ∧
    end_calls (Transformer.close
                 (jsonStreamTransport message_json plain_options) stream')
    = 1%nat.
Proof.
  apply (json_stream_writes_in_order message_json plain_options burst _
           recorder).
  reflexivity.
Defined.

Lemma json_stream_default_writes_lines_witness :
  ∃ stream',
    transform_each (jsonStreamTransport message_json plain_options) burst
      recorder
    = Some stream' ∧
    written stream' = [ "tick" +:+ newline; "tick" +:+ newline;
                        "tick" +:+ newline ].
Proof.
  apply (json_stream_default_writes_lines message_json plain_options burst
           ["tick"; "tick"; "tick"] recorder); reflexivity.
Defined.
